(** * crnpy: reactions with symbolic rates ([crnpy/reaction.py])

    A shallow embedding of the [Reaction] class and of the functions of
    [reaction.py] that split, merge, normalise and compose reactions,
    together with the properties stated for them.

    Layout:
    - [outcome]: what running a piece of Python produces (a value, an
      exception, or no answer within the given number of loop passes);
    - [Complex]: the stoichiometric counter, kept in a store of objects
      because reactions hold references to complexes and some methods
      update them in place;
    - [SymEngine]: the operations of the symbolic engine (sympy) that
      the code calls;
    - the methods and functions of [reaction.py];
    - [Laurent]: an executable engine for sums of monomials with integer
      exponents, on which concrete reactions are run;
    - the properties. *)

From Stdlib Require Import ZArith String Ascii List Lia Sorted.
From stdpp Require Import base option list gmap strings fin_maps pretty.

Set Default Proof Using "Type".
Local Open Scope Z_scope.

(** ** Outcomes of Python code *)

Inductive exn :=
  | TypeError | AttributeError | ValueError | IndexError | PolynomialError
  | Dangling. (* a reference to no object; no Python program produces one *)

Inductive outcome (A : Type) : Type :=
  | Ok (a : A)
  | Raise (e : exn)
  | OutOfFuel.
Arguments Ok {A} a.
Arguments Raise {A} e.
Arguments OutOfFuel {A}.

#[global] Instance exn_eq_dec : EqDecision exn.
Proof. solve_decision. Defined.

Definition obind {A B} (m : outcome A) (k : A → outcome B) : outcome B :=
  match m with
  | Ok a => k a
  | Raise e => Raise e
  | OutOfFuel => OutOfFuel
  end.

(** [reduce(f, l)] of [functools], called without an initial value: on an
    empty sequence it raises [TypeError]. *)
Definition reduce {A} (f : A → A → A) (l : list A) : outcome A :=
  match l with
  | [] => Raise TypeError
  | x :: l' => Ok (foldl f x l')
  end.

(** ** Complexes

    [Complex] comes from [crncomplex.py]; [reaction.py] uses it as a
    mapping from species names to integer coefficients. *)

Abbreviation Complex := (gmap string Z).

(** Modelled from the spec: the class [Complex] of [crncomplex.py] is
    missing.  The spec gives it as a mapping from species to integer
    coefficients with get, set and delete by key, a membership test,
    [+], [-] clipped at zero per key, [&] as element-wise minimum, and
    [ma()] (below, after the engine).  Reading a species that has no entry
    gives 0 and results of [+], [-], [&] keep no entry at coefficient 0. *)
Definition coefficient (c : Complex) (s : string) : Z := default 0 (c !! s).

Definition keep_positive (n : Z) : option Z :=
  if decide (0 < n) then Some n else None.

Definition c_add (a b : Complex) : Complex :=
  merge (λ x y, match x, y with
                | None, None => None
                | _, _ => keep_positive (default 0 x + default 0 y)
                end) a b.

Definition c_sub (a b : Complex) : Complex :=
  merge (λ x y, match x, y with
                | None, None => None
                | _, _ => keep_positive (default 0 x - default 0 y)
                end) a b.

Definition c_and (a b : Complex) : Complex :=
  merge (λ x y, match x, y with
                | None, None => None
                | _, _ => keep_positive (Z.min (default 0 x) (default 0 y))
                end) a b.

(** ** The store of complexes

    A [Reaction] keeps references to its reactant and product, and
    [remove_react_prod], [_fix_ma] and [_fix_denom] assign to
    [self.reactant[s]] and delete from it: they change the object that every
    holder of the reference sees.  The store maps a reference to the current
    content of the object. *)

Abbreviation loc := nat (only parsing).
Abbreviation store := (list Complex) (only parsing).

Definition M (A : Type) : Type := store → outcome (A * store).

Definition ret {A} (a : A) : M A := λ h, Ok (a, h).
Definition bind {A B} (m : M A) (k : A → M B) : M B :=
  λ h, match m h with
       | Ok (a, h') => k a h'
       | Raise e => Raise e
       | OutOfFuel => OutOfFuel
       end.
Definition raise {A} (e : exn) : M A := λ _, Raise e.
Definition diverge {A} : M A := λ _, OutOfFuel.
Definition lift {A} (o : outcome A) : M A :=
  λ h, match o with
       | Ok a => Ok (a, h)
       | Raise e => Raise e
       | OutOfFuel => OutOfFuel
       end.

Declare Scope py_scope.
Delimit Scope py_scope with py.
Notation "x <- m ;; k" := (bind m (λ x, k))
  (at level 100, m at next level, right associativity) : py_scope.
Notation "m ;;; k" := (bind m (λ _, k))
  (at level 100, right associativity) : py_scope.
Local Open Scope py_scope.

(** Reading the object behind a reference. *)
Definition deref (l : loc) : M Complex :=
  λ h, match h !! l with
       | Some c => Ok (c, h)
       | None => Raise Dangling
       end.

(** [Complex(c)]: a new object with the content [c]. *)
Definition alloc (c : Complex) : M loc :=
  λ h, Ok (length h, h ++ [c]).

(** [obj[s] = n] *)
Definition set_item (l : loc) (s : string) (n : Z) : M unit :=
  λ h, match h !! l with
       | Some c => Ok (tt, <[l := <[s := n]> c]> h)
       | None => Raise Dangling
       end.

(** [del obj[s]] *)
Definition del_item (l : loc) (s : string) : M unit :=
  λ h, match h !! l with
       | Some c => Ok (tt, <[l := delete s c]> h)
       | None => Raise Dangling
       end.

Fixpoint mapM' {A B} (f : A → M B) (l : list A) : M (list B) :=
  match l with
  | [] => ret []
  | x :: l' => y <- f x ;; ys <- mapM' f l' ;; ret (y :: ys)
  end.

Fixpoint foldM {A S} (f : S → A → M S) (l : list A) (s : S) : M S :=
  match l with
  | [] => ret s
  | x :: l' => s' <- f s x ;; foldM f l' s'
  end.

(** ** The symbolic engine

    [reaction.py] builds and inspects sympy expressions.  The class lists the
    operations it calls.  [func_name e] is [e.func.__name__] as far as the
    code looks at it. *)

Inductive func := Add | Mul | Pow | Symbol | Number.

#[global] Instance func_eq_dec : EqDecision func.
Proof. solve_decision. Defined.

Class SymEngine := {
  expr : Type;
  expr_eq_dec :: EqDecision expr;
  sym : string → expr;                 (* sympify(s) for a species name *)
  num : Z → expr;                      (* an integer *)
  eadd : expr → expr → expr;
  esub : expr → expr → expr;
  emul : expr → expr → expr;
  ediv : expr → expr → expr;
  epow : expr → Z → expr;
  cancel : expr → expr;
  expand : expr → expr;
  factor : expr → expr;
  as_numer_denom : expr → expr * expr;
  func_name : expr → func;
  args : expr → list expr;
  lcm : expr → expr → expr;
  (* sp.Poly(e, gens...).as_dict(): degrees in the generators, coefficient *)
  poly_as_dict : expr → list expr → outcome (list (list Z * expr));
  is_Float : expr → bool;              (* isinstance(e, sp.Float) *)
  expr_str : expr → string;            (* str(e) *)
  float_fmt : expr → nat → string;     (* "{:.{}e}".format(e, precision) *)
}.

Declare Scope expr_scope.
Delimit Scope expr_scope with E.
Infix "+" := eadd : expr_scope.
Infix "-" := esub : expr_scope.
Infix "*" := emul : expr_scope.
Infix "/" := ediv : expr_scope.
Infix "^" := epow : expr_scope.

(** A reaction: the attributes of the Python object.  [rate] is [None] for a
    reaction without kinetics; [kinetic_param] is [None] as long as the
    attribute has not been assigned. *)
Record Reaction `{SymEngine} := mkReaction {
  reactionid : string;
  reactant : loc;
  product : loc;
  rate : option expr;
  kinetic_param : option expr;
}.
Arguments mkReaction {_} _ _ _ _ _.

(** ** [reaction.py] *)

Section reaction.
Context `{E : SymEngine}.
(** [str(c)] for a complex, from [crncomplex.py]. *)
Variable complex_str : Complex → string.

(** Modelled from the spec: [Complex.ma()] of [crncomplex.py] is missing.
    It is the mass-action monomial, the product over the species of the
    complex of the species' symbol raised to its coefficient. *)
Definition ma (c : Complex) : expr :=
  foldr (λ '(s, n) acc, (sym s ^ n) * acc)%E (num 1) (map_to_list c).

(** Truth value of an expression in [if self.rate]: sympy's zero is false,
    every other expression is true. *)
Definition truthy (e : expr) : bool := negb (bool_decide (e = num 0)).

Definition has_rate (r : option expr) : bool :=
  match r with
  | None => false
  | Some e => truthy e
  end.

(** The setter of [_rate]: stores the rate and, when the value is not
    [None], assigns [kinetic_param = rate / reactant.ma()]. *)
Definition set_rate (self : Reaction) (value : option expr) : M Reaction :=
  match value with
  | None =>
      ret (mkReaction (reactionid self) (reactant self) (product self)
             None (kinetic_param self))
  | Some v =>
      c <- deref (reactant self) ;;
      ret (mkReaction (reactionid self) (reactant self) (product self)
             (Some v) (Some (v / ma c)%E))
  end.

(** [Reaction(reactionid, reactant, product, rate)] *)
Definition Reaction_init (rid : string) (r p : loc) (value : option expr)
  : M Reaction :=
  set_rate (mkReaction rid r p None None) value.

(** [__copy__] *)
Definition Reaction_copy (self : Reaction) : M Reaction :=
  Reaction_init (reactionid self) (reactant self) (product self) (rate self).

(** The setter of [_kinetic_param]:
    [self._rate = (sympify(value) * self.reactant.ma()).cancel()]. *)
Definition set_kinetic_param (self : Reaction) (value : expr) : M Reaction :=
  c <- deref (reactant self) ;;
  set_rate self (Some (cancel (value * ma c)%E)).

(** [self.rate - reaction.rate] and the like need both operands. *)
Definition need_rate (r : option expr) (e : exn) : M expr :=
  match r with
  | Some v => ret v
  | None => raise e
  end.

(** [__eq__] *)
Definition Reaction_eq (self reaction : Reaction) : M bool :=
  a <- deref (reactant self) ;;
  b <- deref (reactant reaction) ;;
  if bool_decide (a = b) then
    a' <- deref (product self) ;;
    b' <- deref (product reaction) ;;
    if bool_decide (a' = b') then
      x <- need_rate (rate self) TypeError ;;
      y <- need_rate (rate reaction) TypeError ;;
      ret (bool_decide (cancel (x - y)%E = num 0))
    else ret false
  else ret false.

(** [format_kinetics] *)
Definition format_kinetics (self : Reaction) (showrate : bool)
    (precision : nat) : M (option string) :=
  if has_rate (rate self) then
    k <- need_rate (kinetic_param self) AttributeError ;;
    if is_Float k then
      if showrate then
        c <- deref (reactant self) ;;
        ret (Some (float_fmt k precision +:+ "*" +:+ expr_str (ma c)))
      else ret (Some (float_fmt k precision))
    else
      if showrate then
        r <- need_rate (rate self) AttributeError ;;
        ret (Some (expr_str r))
      else ret (Some (expr_str k))
  else ret None.

(** [format]: ["{}: {} ->{} {}"] filled with the id, the reactant, the
    annotation of the arrow and the product.  The arguments of
    [str.format] are evaluated in order. *)
Definition format (self : Reaction) (showrate : bool) (precision : nat)
  : M string :=
  r <- deref (reactant self) ;;
  annot <- (if has_rate (rate self) then
              k <- format_kinetics self showrate precision ;;
              match k with
              | Some k => ret ("(" +:+ k +:+ ")")
              | None => raise TypeError   (* "(" + None *)
              end
            else ret "") ;;
  p <- deref (product self) ;;
  ret (reactionid self +:+ ": " +:+ complex_str r +:+ " ->" +:+ annot
         +:+ " " +:+ complex_str p).

Definition with_complexes (self : Reaction) (r p : loc) : Reaction :=
  mkReaction (reactionid self) r p (rate self) (kinetic_param self).

Definition with_kinetic_param (self : Reaction) (k : expr) : Reaction :=
  mkReaction (reactionid self) (reactant self) (product self) (rate self)
    (Some k).

(** [self.__kinetic_param = self.rate / self.reactant.ma()] *)
Definition update_kinetic_param (self : Reaction) : M Reaction :=
  v <- need_rate (rate self) TypeError ;;
  c <- deref (reactant self) ;;
  ret (with_kinetic_param self (v / ma c)%E).

Definition when (b : bool) (m : M unit) : M unit := if b then m else ret tt.

(** [remove_react_prod].  The method works on the object; the updated
    attributes of [self] are returned. *)
Definition remove_react_prod (self : Reaction) (species : option string)
  : M Reaction :=
  reactant0 <- deref (reactant self) ;;       (* Complex(self.reactant) *)
  product0 <- deref (product self) ;;         (* Complex(self.product) *)
  self' <-
    match species with
    | None =>
        let common := c_and reactant0 product0 in
        r <- alloc (c_sub reactant0 common) ;;
        p <- alloc (c_sub product0 common) ;;
        ret (with_complexes self r p)
    | Some s =>
        match reactant0 !! s, product0 !! s with
        | Some nr, Some np =>
            when (bool_decide (np < nr))
              (set_item (reactant self) s (nr - np) ;;;
               del_item (product self) s) ;;;
            when (bool_decide (nr < np))
              (set_item (product self) s (np - nr) ;;;
               del_item (reactant self) s) ;;;
            when (bool_decide (nr = np))
              (del_item (reactant self) s ;;;
               del_item (product self) s) ;;;
            ret self
        | _, _ => ret self
        end
    end ;;
  update_kinetic_param self'.

(** [i.args[0]] *)
Definition arg0 (i : expr) : outcome expr :=
  match args i with
  | a :: _ => Ok a
  | [] => Raise IndexError
  end.

Fixpoint omapM {A B} (f : A → outcome B) (l : list A) : outcome (list B) :=
  match l with
  | [] => Ok []
  | x :: l' => obind (f x) (λ y, obind (omapM f l') (λ ys, Ok (y :: ys)))
  end.

(** [list(e.args) + [i.args[0] for i in e.args if i is a Mul]
                  + [i.args[0] for i in e.args if i is a Pow]] *)
Definition args_and_bases (e : expr) : outcome (list expr) :=
  obind (omapM arg0 (filter (λ i, func_name i = Mul) (args e))) (λ ms,
  obind (omapM arg0 (filter (λ i, func_name i = Pow) (args e))) (λ ps,
  Ok (args e ++ ms ++ ps))).

(** [obj[s] = obj[s] + 1 if s in obj else 1] *)
Definition increment (l : loc) (s : string) : M unit :=
  c <- deref l ;;
  match c !! s with
  | Some n => set_item l s (n + 1)
  | None => set_item l s 1
  end.

(** [del obj[s] if obj[s] == 1 else obj[s] = obj[s] - 1] *)
Definition decrement (l : loc) (s : string) : M unit :=
  c <- deref l ;;
  if bool_decide (coefficient c s = 1) then del_item l s
  else set_item l s (coefficient c s - 1).

(** The state of the loops of [_fix_ma] and [_fix_denom]: the local
    variables [remainder] and [mulargs]. *)
Definition loop_state : Type := expr * list expr.

Definition in_mulargs (s : string) (mulargs : list expr) : bool :=
  bool_decide (sym s ∈ mulargs).

(** One turn of [for s in species] in [_fix_ma]. *)
Definition fix_ma_body (self : Reaction) (st : loop_state) (s : string)
  : M loop_state :=
  let '(remainder, mulargs) := st in
  if in_mulargs s mulargs then
    increment (reactant self) s ;;;
    increment (product self) s ;;;
    let remainder := factor (remainder / sym s)%E in
    if bool_decide (func_name remainder = Mul) then
      mulargs <- lift (args_and_bases remainder) ;;
      ret (remainder, mulargs)
    else ret (remainder, [])
  else ret st.

(** [while any(sympify(s) in mulargs for s in species): for s in species: ...]
    with at most [fuel] passes. *)
Fixpoint fix_ma_loop (fuel : nat) (self : Reaction) (species : list string)
    (st : loop_state) : M loop_state :=
  if existsb (λ s, in_mulargs s (snd st)) species then
    match fuel with
    | O => diverge
    | S fuel' =>
        st' <- foldM (fix_ma_body self) species st ;;
        fix_ma_loop fuel' self species st'
    end
  else ret st.

(** [_fix_ma]; [species] defaults to [None] in the source, over which the
    loop cannot iterate. *)
Definition _fix_ma (fuel : nat) (self : Reaction)
    (species : option (list string)) : M Reaction :=
  r <- need_rate (rate self) AttributeError ;;
  let '(numer, denom) := as_numer_denom r in
  c <- deref (reactant self) ;;
  let remainder := factor (numer / ma c)%E in
  if bool_decide (func_name remainder = Mul) then
    mulargs <- lift (args_and_bases remainder) ;;
    match species with
    | None => raise TypeError
    | Some species =>
        fix_ma_loop fuel self species (remainder, mulargs) ;;;
        update_kinetic_param self
    end
  else ret self.

Definition denom_cond (self : Reaction) (mulargs : list expr) (s : string)
  : M bool :=
  if in_mulargs s mulargs then
    r <- deref (reactant self) ;;
    match r !! s with
    | Some _ =>
        p <- deref (product self) ;;
        ret (bool_decide (is_Some (p !! s)))
    | None => ret false
    end
  else ret false.

(** [any(cond(s) for s in species)] *)
Fixpoint anyM {A} (f : A → M bool) (l : list A) : M bool :=
  match l with
  | [] => ret false
  | x :: l' => b <- f x ;; if b then ret true else anyM f l'
  end.

(** One turn of [for s in species] in [_fix_denom]. *)
Definition fix_denom_body (self : Reaction) (species : list string)
    (st : loop_state) (s : string) : M loop_state :=
  let '(remainder, mulargs) := st in
  b <- denom_cond self mulargs s ;;
  if b then
    decrement (reactant self) s ;;;
    decrement (product self) s ;;;
    let remainder := factor (remainder / sym s)%E in
    if bool_decide (func_name remainder = Mul) then
      mulargs <- lift (args_and_bases remainder) ;;
      ret (remainder, mulargs)
    else
      if bool_decide (expr_str remainder ∈ species)
      then ret (remainder, [remainder])
      else ret (remainder, [])
  else ret st.

Fixpoint fix_denom_loop (fuel : nat) (self : Reaction) (species : list string)
    (st : loop_state) : M loop_state :=
  b <- anyM (denom_cond self (snd st)) species ;;
  if b then
    match fuel with
    | O => diverge
    | S fuel' =>
        st' <- foldM (fix_denom_body self species) species st ;;
        fix_denom_loop fuel' self species st'
    end
  else ret st.

(** [_fix_denom] *)
Definition _fix_denom (fuel : nat) (self : Reaction) (species : list string)
  : M Reaction :=
  k <- need_rate (kinetic_param self) AttributeError ;;
  let '(numer, denom) := as_numer_denom k in
  let remainder := cancel denom in
  (if bool_decide (remainder ≠ num 1) then
     mulargs <- lift (args_and_bases remainder) ;;
     fix_denom_loop fuel self species (remainder, remainder :: mulargs) ;;;
     ret tt
   else ret tt) ;;;
  r <- need_rate (rate self) TypeError ;;
  c <- deref (reactant self) ;;
  set_kinetic_param self (r / ma c)%E.

End reaction.

(** ** Python sequences

    In Python 3 [map(f, l)] is an iterator: unpacking it with [*] consumes it,
    and it has no [len] and no indexing. *)

Inductive pyseq (A : Type) : Type :=
  | PyList (l : list A)
  | PyMap (pending : list A).
Arguments PyList {A} l.
Arguments PyMap {A} pending.

Definition py_map {A B} (f : A → B) (l : list A) : pyseq B := PyMap (map f l).

(** [*s] in a call: the items, and the sequence afterwards. *)
Definition py_unpack {A} (s : pyseq A) : list A * pyseq A :=
  match s with
  | PyList l => (l, PyList l)
  | PyMap pending => (pending, PyMap [])
  end.

Definition py_len {A} (s : pyseq A) : outcome nat :=
  match s with
  | PyList l => Ok (length l)
  | PyMap _ => Raise TypeError
  end.

Definition py_getitem {A} (s : pyseq A) (i : nat) : outcome A :=
  match s with
  | PyList l => match l !! i with Some x => Ok x | None => Raise IndexError end
  | PyMap _ => Raise TypeError
  end.

(** [sorted(l, key = ...)]: a stable sort, the keys compared as strings. *)
Fixpoint insert_by {A} (key : A → string) (x : A) (l : list A) : list A :=
  match l with
  | [] => [x]
  | y :: l' =>
      if String.leb (key y) (key x) then y :: insert_by key x l'
      else x :: l
  end.

Definition sorted_by {A} (key : A → string) (l : list A) : list A :=
  foldl (λ acc x, insert_by key x acc) [] l.

(** The order of the keys. *)
Definition key_le {A} (key : A → string) (a b : A) : Prop :=
  String.leb (key a) (key b) = true.

(** [s.replace(a, b)] for a one-character [a]. *)
Fixpoint replace_char (a : ascii) (b : string) (s : string) : string :=
  match s with
  | EmptyString => EmptyString
  | String c s' =>
      if Ascii.eqb c a then b +:+ replace_char a b s'
      else String c (replace_char a b s')
  end.

Section functions.
Context `{E : SymEngine}.
Variable complex_str : Complex → string.

(** [sp.Mul] applied to the items of a list. *)
Definition Mul_of (l : list expr) : expr := foldr emul (num 1) l.

(** [sum(l)]: starts from the integer 0 and adds from the left. *)
Definition py_sum (l : list expr) : expr := foldl eadd (num 0) l.

(** [[f(i, x) for i, x in enumerate(l)]], running [f] in order. *)
Definition mapM_enum {A B} (f : nat → A → M B) (l : list A) : M (list B) :=
  mapM' (λ ix, f (fst ix) (snd ix)) (zip (seq 0 (length l)) l).

(** [_split_reaction] *)
Definition _split_reaction (reaction : Reaction) : M (list Reaction) :=
  r <- need_rate (rate reaction) AttributeError ;;
  let '(ratenumer, ratedenom) := as_numer_denom r in
  let ratenumer := expand ratenumer in
  if bool_decide (func_name ratenumer = Add) then
    mapM_enum (λ ra addend,
        Reaction_init (reactionid reaction +:+ "_" +:+ pretty ra)
          (reactant reaction) (product reaction)
          (Some (addend / ratedenom)%E))
      (args ratenumer)
  else ret [reaction].

(** [_split_reaction_monom] *)
Definition _split_reaction_monom (reaction : Reaction) (species : list string)
  : M (list Reaction) :=
  r <- need_rate (rate reaction) AttributeError ;;
  let '(ratenumer, ratedenom) := as_numer_denom (cancel r) in
  let ratenumer := expand ratenumer in
  let species := py_map sym species in
  let '(gens, species) := py_unpack species in
  ratendict <- lift (poly_as_dict ratenumer gens) ;;
  if bool_decide (1 < length ratendict)%nat then
    mapM_enum (λ i entry,
        let '(degrees, coeff) := entry in
        n <- lift (py_len species) ;;
        factors <- lift (omapM (λ r,
                      obind (py_getitem species r) (λ x,
                      match degrees !! r with
                      | Some d => Ok (x ^ d)%E
                      | None => Raise IndexError
                      end)) (seq 0 n)) ;;
        let ratenpart := (Mul_of factors * coeff)%E in
        Reaction_init (reactionid reaction +:+ "_" +:+ pretty (S i))
          (reactant reaction) (product reaction)
          (Some (ratenpart / ratedenom)%E))
      ratendict
  else ret [reaction].

(** The key under which [merge_reactions] files a reaction:
    [(tuple(sorted(reactant.items())), tuple(sorted(product.items())))].
    The sorted tuple of items is a canonical form of the mapping, as is the
    [gmap] itself: two keys are equal exactly when the two mappings are. *)
Definition merge_key : Type := Complex * Complex.

Definition key_of (reaction : Reaction) : M merge_key :=
  r <- deref (reactant reaction) ;;
  p <- deref (product reaction) ;;
  ret (r, p).

(** [react[key].append(reaction)] on a [defaultdict(list)]; the dictionary
    keeps its keys in order of first insertion. *)
Fixpoint dict_append (k : merge_key) (x : Reaction)
    (d : list (merge_key * list Reaction)) : list (merge_key * list Reaction) :=
  match d with
  | [] => [(k, [x])]
  | (k', xs) :: d' =>
      if bool_decide (k = k') then (k', xs ++ [x]) :: d'
      else (k', xs) :: dict_append k x d'
  end.

Definition group_reactions (reactions : list Reaction)
  : M (list (merge_key * list Reaction)) :=
  foldM (λ d reaction, k <- key_of reaction ;; ret (dict_append k reaction d))
    reactions [].

(** The reaction built from one group, if the group is not a loop. *)
Definition merge_group (members : list Reaction) : M (list Reaction) :=
  match members with
  | [] => raise IndexError
  | first :: _ =>
      r <- deref (reactant first) ;;
      p <- deref (product first) ;;
      if bool_decide (r ≠ p) then
        rates <- mapM' (λ m, need_rate (rate m) TypeError) members ;;
        x <- Reaction_init (String.concat "" (map reactionid members))
               (reactant first) (product first)
               (Some (cancel (py_sum rates))) ;;
        ret [x]
      else ret []
  end.

(** [merge_reactions] *)
Definition merge_reactions (reactions : list Reaction) : M (list Reaction) :=
  react <- group_reactions reactions ;;
  newreactions <- mapM' (λ g, merge_group (snd g)) react ;;
  ret (sorted_by reactionid (concat newreactions)).

(** [zip] over the unpacked pairs, assigned to two names. *)
Definition unzip2 {A B} (l : list (A * B)) : outcome (list A * list B) :=
  match l with
  | [] => Raise ValueError
  | _ => Ok (map fst l, map snd l)
  end.

(** [_same_denom] *)
Definition _same_denom (reactions : list Reaction) : M (list Reaction) :=
  rates <- mapM' (λ r, need_rate (rate r) AttributeError) reactions ;;
  nd <- lift (unzip2 (map as_numer_denom rates)) ;;
  let '(numers, denoms) := nd in
  commondenom <- lift (reduce lcm denoms) ;;
  new <- mapM' (λ x : Reaction * (expr * expr),
      let '(reaction, (numer, denom)) := x in
      if bool_decide (cancel (denom - commondenom)%E ≠ num 0) then
        let diff := expand (cancel (commondenom / denom)%E) in
        if bool_decide (func_name diff = Add) then
          mapM_enum (λ ra addend,
              Reaction_init (reactionid reaction +:+ "_" +:+ pretty ra)
                (reactant reaction) (product reaction)
                (Some (addend * numer / commondenom)%E))
            (args diff)
        else
          x <- Reaction_init (reactionid reaction)
                 (reactant reaction) (product reaction)
                 (Some (diff * numer / commondenom)%E) ;;
          ret [x]
      else ret [reaction])
    (zip reactions (zip numers denoms)) ;;
  ret (concat new).

(** [translate]: [c] is a complex (a value; the new reaction gets new
    objects [Complex(reaction.reactant + c)] and
    [Complex(reaction.product + c)]). *)
Definition translate (reaction : Reaction) (c : Complex) : M Reaction :=
  let rid := reactionid reaction +:+ "_" +:+
             replace_char "-" "m"
               (replace_char "+" "_" (replace_char " " "" (complex_str c))) in
  r <- deref (reactant reaction) ;;
  r' <- alloc (c_add r c) ;;
  p <- deref (product reaction) ;;
  p' <- alloc (c_add p c) ;;
  Reaction_init rid r' p' (rate reaction).

(** [reaction_path].  The complexes in [additions] are returned by value. *)
Definition reaction_path (reactions : list Reaction)
  : M (list Reaction * list Complex) :=
  additions <- mapM' (λ h,
      before <- mapM' (λ r : Reaction, deref (product r)) (take h reactions) ;;
      after <- mapM' (λ r : Reaction, deref (reactant r))
                 (drop (S h) reactions) ;;
      lift (reduce c_add (before ++ after)))
    (seq 0 (length reactions)) ;;
  c <- lift (reduce c_and additions) ;;
  let additions := map (λ a, c_sub a c) additions in
  translated <- mapM' (λ x : Reaction * Complex, translate (fst x) (snd x))
                  (zip reactions additions) ;;
  ret (translated, additions).

End functions.

(** ** An executable engine: Laurent polynomials

    Expressions are finite sums of terms [c * s1^e1 * ... * sn^en] with a
    non-zero integer coefficient and non-zero integer exponents on symbols,
    which is the form sympy itself gives to products and quotients of symbols
    (it adds the exponents of equal bases and drops a base whose exponent
    becomes 0) and to sums of such terms (it adds the coefficients of equal
    terms).  On single terms the engine answers as sympy does, including
    [func], [args], [as_numer_denom] and [lcm].  A sum is kept as a sum,
    its terms listed in the order of sympy's comparison of expressions
    ([addends]): [factor], [cancel] and [expand] return it as it is, and a
    quotient by anything other than a term with coefficient 1 or -1 has no
    representation (the engine answers 0 for it). *)

Module Laurent.

(** Non-zero integers, as the values of finitely supported functions. *)
Inductive nz := NzPos (p : positive) | NzNeg (p : positive).

Definition nz_to_Z (x : nz) : Z :=
  match x with NzPos p => Zpos p | NzNeg p => Zneg p end.

Definition nz_of_Z (z : Z) : option nz :=
  match z with
  | Z0 => None
  | Zpos p => Some (NzPos p)
  | Zneg p => Some (NzNeg p)
  end.

#[global] Instance nz_eq_dec : EqDecision nz.
Proof. solve_decision. Defined.

#[global] Instance nz_countable : Countable nz :=
  inj_countable nz_to_Z nz_of_Z
    (λ x, match x with NzPos _ => eq_refl | NzNeg _ => eq_refl end).

(** A finitely supported function from [K] to the integers. *)
Abbreviation fsupp K := (gmap K nz).

Definition oz (x : option nz) : Z := from_option nz_to_Z 0 x.

Section fsupp.
Context `{Countable K}.

Definition val (f : fsupp K) (k : K) : Z := oz (f !! k).

Definition fs_add (f g : fsupp K) : fsupp K :=
  merge (λ x y, nz_of_Z (oz x + oz y)) f g.

Definition fs_neg (f : fsupp K) : fsupp K :=
  omap (λ a, nz_of_Z (- nz_to_Z a)) f.

Definition fs_max (f g : fsupp K) : fsupp K :=
  merge (λ x y, nz_of_Z (Z.max (oz x) (oz y))) f g.

Definition fs_single (k : K) (z : Z) : fsupp K :=
  match nz_of_Z z with
  | Some a => {[ k := a ]}
  | None => ∅
  end.

End fsupp.

(** Monomials: symbol ↦ exponent.  Polynomials: monomial ↦ coefficient. *)
Abbreviation mono := (fsupp string).
Abbreviation poly := (fsupp mono).

(** [c * u * p] for a coefficient [c] and a monomial [u]. *)
Definition scale (c : Z) (u : mono) (p : poly) : poly :=
  kmap (fs_add u) (omap (λ a, nz_of_Z (c * nz_to_Z a)) p).

(** The coefficient and monomial of an expression that is a single term. *)
Definition as_term (p : poly) : option (Z * mono) :=
  match map_to_list p with
  | [(m, c)] => Some (nz_to_Z c, m)
  | _ => None
  end.

Definition pnum (z : Z) : poly := fs_single ∅ z.
Definition psym (s : string) : poly := fs_single (fs_single s 1) 1.

Definition pmul (p q : poly) : poly :=
  match as_term q with
  | Some (c, u) => scale c u p
  | None =>
      match as_term p with
      | Some (c, u) => scale c u q
      | None =>
          map_fold (λ m a acc, fs_add (scale (nz_to_Z a) m q) acc) ∅ p
      end
  end.

Definition pdiv (p q : poly) : poly :=
  match as_term q with
  | Some (c, u) =>
      if bool_decide (c = 1 ∨ c = -1) then scale c (fs_neg u) p else ∅
  | None => ∅
  end.

Definition ppow (p : poly) (z : Z) : poly :=
  if bool_decide (0 ≤ z) then Nat.iter (Z.to_nat z) (λ acc, pmul acc p) (pnum 1)
  else Nat.iter (Z.to_nat (- z)) (λ acc, pdiv acc p) (pnum 1).

(** The denominator of a term: its symbols with negative exponent. *)
Definition denom_of (m : mono) : mono :=
  omap (λ e, if bool_decide (nz_to_Z e < 0) then nz_of_Z (- nz_to_Z e)
             else None) m.

(** sympy's [Add.as_numer_denom] takes the product of the distinct
    denominators of the terms as the denominator. *)
Definition common_denom (p : poly) : mono :=
  set_fold fs_add ∅ (set_map (C:=gset mono) (D:=gset mono) denom_of (dom p)).

Definition p_as_numer_denom (p : poly) : poly * poly :=
  let d := common_denom p in (scale 1 d p, fs_single d 1).

Definition term_func (c : Z) (m : mono) : func :=
  match map_to_list m with
  | [] => Number
  | [(s, e)] =>
      if bool_decide (c = 1) then
        if bool_decide (nz_to_Z e = 1) then Symbol else Pow
      else Mul
  | _ => Mul
  end.

Definition pfunc (p : poly) : func :=
  match map_to_list p with
  | [] => Number
  | [(m, c)] => term_func (nz_to_Z c) m
  | _ => Add
  end.

(** A factor [s^e] of a term, as an expression. *)
Definition power (se : string * nz) : poly :=
  fs_single (fs_single se.1 (nz_to_Z se.2)) 1.

Definition term_args (c : Z) (m : mono) : list poly :=
  match term_func c m with
  | Mul =>
      (if bool_decide (c = 1) then [] else [pnum c]) ++
      map power (map_to_list m)
  | Pow =>
      match map_to_list m with
      | [(s, e)] => [psym s; pnum (nz_to_Z e)]
      | _ => []
      end
  | _ => []
  end.

(** The order of the terms of a sum.  sympy sorts the arguments of an [Add]
    with its comparison of expressions: first by class (numbers before
    symbols before powers before products), then by the number of arguments,
    then argument by argument, where the arguments of a product are its
    numeric coefficient, its symbols and its powers in that same order;
    symbols compare by name, powers by base and then exponent, numbers by
    value. *)
Inductive atom := FNum (z : Z) | FSym (s : string) | FPow (s : string) (e : Z).

Definition atom_rank (f : atom) : nat :=
  match f with FNum _ => 0 | FSym _ => 1 | FPow _ _ => 2 end.

Definition atom_cmp (f g : atom) : comparison :=
  match f, g with
  | FNum a, FNum b => Z.compare a b
  | FSym s, FSym t => String.compare s t
  | FPow s a, FPow t b =>
      match String.compare s t with
      | Eq => Z.compare a b
      | c => c
      end
  | _, _ => Nat.compare (atom_rank f) (atom_rank g)
  end.

Fixpoint atoms_cmp (a b : list atom) : comparison :=
  match a, b with
  | [], [] => Eq
  | [], _ :: _ => Lt
  | _ :: _, [] => Gt
  | f :: a', g :: b' =>
      match atom_cmp f g with
      | Eq => atoms_cmp a' b'
      | c => c
      end
  end.

Fixpoint insert_cmp {A} (cmp : A → A → comparison) (x : A) (l : list A)
  : list A :=
  match l with
  | [] => [x]
  | y :: l' =>
      match cmp x y with
      | Gt => y :: insert_cmp cmp x l'
      | _ => x :: l
      end
  end.

Definition sort_cmp {A} (cmp : A → A → comparison) (l : list A) : list A :=
  foldr (insert_cmp cmp) [] l.

Definition as_atom (se : string * nz) : atom :=
  if bool_decide (nz_to_Z se.2 = 1) then FSym se.1
  else FPow se.1 (nz_to_Z se.2).

Definition term_atoms (c : Z) (m : mono) : list atom :=
  sort_cmp atom_cmp
    ((if bool_decide (c = 1) && negb (bool_decide (m = ∅)) then []
      else [FNum c]) ++ map as_atom (map_to_list m)).

Definition func_rank (f : func) : nat :=
  match f with Number => 0 | Symbol => 1 | Pow => 2 | Mul => 3 | Add => 4 end.

Definition term_cmp (a b : mono * nz) : comparison :=
  let fa := term_atoms (nz_to_Z a.2) a.1 in
  let fb := term_atoms (nz_to_Z b.2) b.1 in
  match Nat.compare (func_rank (term_func (nz_to_Z a.2) a.1))
                    (func_rank (term_func (nz_to_Z b.2) b.1)) with
  | Eq =>
      match Nat.compare (length fa) (length fb) with
      | Eq => atoms_cmp fa fb
      | c => c
      end
  | c => c
  end.

(** The terms of a sum, in order. *)
Definition addends (p : poly) : list (mono * nz) :=
  sort_cmp term_cmp (map_to_list p).

Definition pargs (p : poly) : list poly :=
  match map_to_list p with
  | [] => []
  | [(m, c)] => term_args (nz_to_Z c) m
  | _ => map (λ mc, {[ mc.1 := mc.2 ]}) (addends p)
  end.

Definition plcm (p q : poly) : poly :=
  match as_term p, as_term q with
  | Some (c, u), Some (d, v) => fs_single (fs_max u v) (Z.lcm c d)
  | _, _ => if bool_decide (p = q) then p else pmul p q
  end.

(** [Poly(p, gens).as_dict()]: the terms filed under their degrees in the
    generators. *)
Definition gen_name (g : poly) : outcome string :=
  match as_term g with
  | Some (c, m) =>
      match map_to_list m with
      | [(s, e)] =>
          if bool_decide (c = 1 ∧ nz_to_Z e = 1) then Ok s
          else Raise PolynomialError
      | _ => Raise PolynomialError
      end
  | None => Raise PolynomialError
  end.

Fixpoint dict_add (k : list Z) (x : poly) (d : list (list Z * poly))
  : list (list Z * poly) :=
  match d with
  | [] => [(k, x)]
  | (k', y) :: d' =>
      if bool_decide (k = k') then (k', fs_add y x) :: d'
      else (k', y) :: dict_add k x d'
  end.

Definition ppoly_as_dict (p : poly) (gens : list poly)
  : outcome (list (list Z * poly)) :=
  obind ((fix names (l : list poly) : outcome (list string) :=
            match l with
            | [] => Ok []
            | g :: l' =>
                obind (gen_name g) (λ s, obind (names l') (λ ss, Ok (s :: ss)))
            end) gens) (λ names,
  if bool_decide (Forall (λ mc : mono * nz,
                     Forall (λ s, 0 ≤ val mc.1 s) names) (map_to_list p))
  then
    Ok (foldl (λ d (mc : mono * nz),
          dict_add (map (val mc.1) names)
            {[ filter (λ se : string * nz, se.1 ∉ names) mc.1 := mc.2 ]} d)
        [] (map_to_list p))
  else Raise PolynomialError).

(** [str(p)]: the name of a symbol; other expressions are written term by
    term. *)
Definition power_str (se : string * nz) : string :=
  if bool_decide (nz_to_Z se.2 = 1) then se.1
  else se.1 +:+ "**" +:+ pretty (nz_to_Z se.2).

Definition term_str (mc : mono * nz) : string :=
  match map_to_list mc.1 with
  | [] => pretty (nz_to_Z mc.2)
  | l =>
      (if bool_decide (nz_to_Z mc.2 = 1) then ""
       else pretty (nz_to_Z mc.2) +:+ "*") +:+
      String.concat "*" (map power_str l)
  end.

Definition pstr (p : poly) : string :=
  match map_to_list p with
  | [] => "0"
  | l => String.concat " + " (map term_str l)
  end.

#[global] Instance engine : SymEngine := {|
  expr := poly;
  sym := psym;
  num := pnum;
  eadd := fs_add;
  esub := λ p q, fs_add p (fs_neg q);
  emul := pmul;
  ediv := pdiv;
  epow := ppow;
  cancel := id;
  expand := id;
  factor := id;
  as_numer_denom := p_as_numer_denom;
  func_name := pfunc;
  args := pargs;
  lcm := plcm;
  poly_as_dict := ppoly_as_dict;
  is_Float := λ _, false;
  expr_str := pstr;
  float_fmt := λ _ _, "";
|}.

(** A term with the coefficient 1. *)
Definition unit_term (p : poly) : Prop := ∃ u : mono, p = {[ u := NzPos 1 ]}.

End Laurent.

(** ** What the properties are stated with *)

Section notions.
Context `{E : SymEngine}.

(** Two rates are the same rational function, as [Reaction.__eq__] tests it:
    the difference cancels to 0. *)
Definition same_rate (x y : expr) : Prop := cancel (x - y)%E = num 0.

(** Invariant I1 for a reaction with a rate, in the store [h]:
    [(kinetic_param * reactant.ma() - rate).cancel() == 0]. *)
Definition I1 (h : list Complex) (r : Reaction) : Prop :=
  match rate r with
  | None => True
  | Some x =>
      ∃ k c, kinetic_param r = Some k ∧ h !! reactant r = Some c ∧
             cancel (k * ma c - x)%E = num 0
  end.

(** The references of a reaction point to objects of the store. *)
Definition allocated (h : list Complex) (r : Reaction) : Prop :=
  is_Some (h !! reactant r) ∧ is_Some (h !! product r).

(** The complexes of a reaction, read from the store. *)
Definition complexes (h : list Complex) (r : Reaction) : Complex * Complex :=
  (default ∅ (h !! reactant r), default ∅ (h !! product r)).

(** What the spec says of [remove_react_prod] with one species: the smaller
    of the two coefficients is subtracted from both sides, and a side that
    reaches zero drops the species. *)
Definition put (s : string) (n : Z) (c : Complex) : Complex :=
  if bool_decide (n = 0) then delete s c else <[s := n]> c.

Definition rebalance (s : string) (R P : Complex) : Complex * Complex :=
  match R !! s, P !! s with
  | Some nr, Some np =>
      let m := Z.min nr np in (put s (nr - m) R, put s (np - m) P)
  | _, _ => (R, P)
  end.

(** What the spec says of [merge_reactions]: one reaction for each group of
    reactions with the same pair of complexes, unless the two complexes of
    the pair are equal. *)
Definition members (h : list Complex) (k : Complex * Complex)
    (rs : list Reaction) : list Reaction :=
  filter (λ r, complexes h r = k) rs.

Definition merged (h : list Complex) (ms : list Reaction) : option Reaction :=
  match ms with
  | [] => None
  | first :: _ =>
      let x := cancel (py_sum (omap rate ms)) in
      Some (mkReaction (String.concat "" (map reactionid ms))
              (reactant first) (product first)
              (Some x) (Some (x / ma (complexes h first).1)%E))
  end.

(** The distinct items of a list, each at its first occurrence. *)
Definition first_occurrences `{EqDecision A} (l : list A) : list A :=
  reverse (remove_dups (reverse l)).

Definition merge_spec (h : list Complex) (rs : list Reaction)
  : list Reaction :=
  omap (λ k, merged h (members h k rs))
    (filter (λ k : Complex * Complex, k.1 ≠ k.2)
       (first_occurrences (map (complexes h) rs))).

(** The groups, as the dictionary of [merge_reactions] holds them. *)
Definition groups (h : list Complex) (rs : list Reaction)
  : list (merge_key * list Reaction) :=
  map (λ k, (k, members h k rs)) (first_occurrences (map (complexes h) rs)).

(** What one group contributes. *)
Definition group_out (h : list Complex) (g : merge_key * list Reaction)
  : list Reaction :=
  if decide (g.1.1 ≠ g.1.2) then option_list (merged h g.2) else [].

(** The reactions [_split_reaction] builds from the addends of a numerator. *)
Definition split_reactions (r : Reaction) (R : Complex) (d : expr)
    (addends : list expr) : list Reaction :=
  map (λ ix : nat * expr,
         mkReaction (reactionid r +:+ "_" +:+ pretty ix.1)
           (reactant r) (product r)
           (Some (ix.2 / d)%E) (Some (ix.2 / d / ma R)%E))
    (zip (seq 0 (length addends)) addends).


Definition id_le (a b : Reaction) : Prop :=
  String.leb (reactionid a) (reactionid b) = true.

(** The sum of the coefficients of a complex. *)
Definition total (c : Complex) : Z := map_fold (λ _ n acc, n + acc) 0 c.

(** Every species of the complex has a positive coefficient. *)
Definition positive_coeffs (c : Complex) : Prop :=
  map_Forall (λ _ n, 0 < n) c.

(** What the loop of [_fix_denom] keeps: the reactant object holds [R],
    with positive coefficients, and the product object is there. *)
Definition denom_inv (self : Reaction) (h : list Complex) (R : Complex)
  : Prop :=
  h !! reactant self = Some R ∧ is_Some (h !! product self) ∧
  positive_coeffs R.

End notions.

(** The laws of the engine that the algebraic properties rest on.  They say
    that [same_rate] is an equality of rational functions that the operations
    respect, that [cancel], [expand] and [as_numer_denom] keep the value of an
    expression, and that an [Add] is the sum of its arguments. *)
Class SymLaws (E : SymEngine) : Prop := {
  same_rate_equiv :: Equivalence same_rate;
  eadd_proper :: Proper (same_rate ==> same_rate ==> same_rate) eadd;
  ediv_proper : ∀ d x y, same_rate x y → same_rate (x / d)%E (y / d)%E;
  cancel_same : ∀ x, same_rate (cancel x) x;
  expand_same : ∀ x, same_rate (expand x) x;
  numer_denom_same : ∀ x, same_rate x ((as_numer_denom x).1 / (as_numer_denom x).2)%E;
  add_args_same : ∀ x, func_name x = Add → same_rate (py_sum (args x)) x;
  add_zero_l : ∀ x, same_rate (num 0 + x)%E x;
  div_add_distr : ∀ x y d, same_rate ((x + y) / d)%E (x / d + y / d)%E;
  zero_div : ∀ d, same_rate (num 0 / d)%E (num 0);
}.

(** ** Scenarios on the Laurent engine *)

Module Scenario.
Import Laurent.

Definition A : poly := psym "A".
Definition B : poly := psym "B".
Definition k : poly := psym "k".
Definition k1 : poly := psym "k1".
Definition k2 : poly := psym "k2".

Definition cA : Complex := {[ "A" := 1 ]}.
Definition cB : Complex := {[ "B" := 1 ]}.

(** The store with the complexes [A] and [B] at the references 0 and 1. *)
Definition h0 : list Complex := [cA; cB].

(** A rendering of complexes for the scenarios: ["2A + B"]. *)
Definition show_complex (c : Complex) : string :=
  String.concat " + "
    (map (λ sn : string * Z,
            if bool_decide (sn.2 = 1) then sn.1 else pretty sn.2 +:+ sn.1)
       (map_to_list c)).

(** [r: A -> B] with the given rate. *)
Definition A_to_B (rid : string) (x : poly) : M Reaction :=
  Reaction_init rid 0%nat 1%nat (Some x).

(** The remainder [k / A^p] met by [_fix_ma] on [A -> B] with rate [k]. *)
Definition k_over_A (p : positive) : mono :=
  {[ "k" := NzPos 1; "A" := NzNeg p ]}.

(** [r1: A -> B] with rate [k*A], as its constructor leaves it. *)
Definition r1 : Reaction := mkReaction "r1" 0%nat 1%nat (Some (pmul k A)) (Some k).

(** [r2: A -> B] with rate [k*A^2]. *)
Definition rate2 : poly := pmul k (ppow A 2).

(** [r3: A -> B] with rate [k1*A + k2*A^2]. *)
Definition rate3 : poly := fs_add (pmul k1 A) (pmul k2 (ppow A 2)).

(** [r: A -> B] with rate [k1*A^2 + k2*A^3]. *)
Definition rate23 : poly := fs_add (pmul k1 (ppow A 2)) (pmul k2 (ppow A 3)).

(** Split [r], then call [_fix_ma] on the first of the two reactions. *)
Definition split_then_fix : M (Reaction * Reaction) :=
  r <- A_to_B "r" rate23 ;;
  l <- _split_reaction r ;;
  match l with
  | [x; y] => x' <- _fix_ma 5 x (Some ["A"]) ;; ret (x', y)
  | _ => raise ValueError
  end.

(** What the run leaves: the first reaction, the one of the addend
    [k1*A^2], with the kinetic parameter [k1]; the second, of the addend
    [k2*A^3], as it was built, with the kinetic parameter [k2*A^2]; and the
    store, where the reactant they share has become [2A]. *)
Definition fixed_first : Reaction :=
  mkReaction "r_0" 0%nat 1%nat
    (Some (pdiv (pmul k1 (ppow A 2)) (pnum 1))) (Some k1).
Definition stale_second : Reaction :=
  mkReaction "r_1" 0%nat 1%nat
    (Some (pdiv (pmul k2 (ppow A 3)) (pnum 1))) (Some (pmul k2 (ppow A 2))).
Definition store_after_fix : list Complex :=
  [ {[ "A" := 2 ]}; {[ "B" := 1; "A" := 1 ]} ].

(** Two reactions [A -> B] with the rates [k/A] and [k/(A*B)]. *)
Definition two_denominators : M (list Reaction) :=
  ra <- A_to_B "a" (pdiv k A) ;;
  rb <- A_to_B "b" (pdiv k (pmul A B)) ;;
  _same_denom [ra; rb].

(** What [_same_denom] returns for them: the first rate rebuilt as
    [B*k/(A*B)], the second reaction as it was. *)
Definition same_denom_out : list Reaction :=
  [ mkReaction "a" 0%nat 1%nat
      (Some (pdiv (pmul B k) (pmul A B)))
      (Some (pdiv (pdiv (pmul B k) (pmul A B)) A));
    mkReaction "b" 0%nat 1%nat
      (Some (pdiv k (pmul A B)))
      (Some (pdiv (pdiv k (pmul A B)) A)) ].

(** Two reactions [A -> B] on different objects, with the rates [k1*A] and
    [k2*A], and the reaction that merges them. *)
Definition h_two : list Complex := [cA; cB; cA; cB].
Definition m1 : Reaction :=
  mkReaction "r1" 0%nat 1%nat (Some (pmul k1 A)) (Some k1).
Definition m2 : Reaction :=
  mkReaction "r2" 2%nat 3%nat (Some (pmul k2 A)) (Some k2).
Definition m12 : Reaction :=
  mkReaction "r1r2" 0%nat 1%nat (Some (pmul (fs_add k1 k2) A))
    (Some (pdiv (pmul (fs_add k1 k2) A) A)).

(** [A + B -> B], for [_fix_denom]. *)
Definition cAB : Complex := {[ "A" := 1; "B" := 1 ]}.
Definition h_AB : list Complex := [cAB; cB].

(** The remainder [k / A^p] as an expression. *)
Definition quotient (p : positive) : poly := {[ k_over_A p := NzPos 1 ]}.

(** [A -> A] on two objects with the same content, split and merged. *)
Definition h_loop : list Complex := [cA; cB; cA].
Definition split_merge_loop : M (list Reaction) :=
  r <- Reaction_init "r" 0%nat 2%nat (Some rate3) ;;
  l <- _split_reaction r ;;
  merge_reactions l.

(** [r: A -> B] with the rate [k], as its constructor leaves it. *)
Definition r_k : Reaction :=
  mkReaction "r" 0%nat 1%nat (Some k) (Some (pdiv k A)).

End Scenario.

(** Outcomes and reactions can be compared by computation. *)
#[global] Instance outcome_eq_dec `{EqDecision A} : EqDecision (outcome A).
Proof. solve_decision. Defined.

#[global] Instance Reaction_eq_dec `{E : SymEngine} : EqDecision Reaction.
Proof. solve_decision. Defined.

(** * Properties *)

(** A closed proposition with a decision procedure is settled by running
    the procedure. *)
Ltac run := apply (bool_decide_unpack _); vm_compute; exact I.

(** ** The monad *)

Lemma bind_Ok {A B} (m : M A) (f : A → M B) h a h' :
  m h = Ok (a, h') → bind m f h = f a h'.
Proof. intros Hm. unfold bind. by rewrite Hm. Qed.

Lemma bind_Raise {A B} (m : M A) (f : A → M B) h e :
  m h = Raise e → bind m f h = Raise e.
Proof. intros Hm. unfold bind. by rewrite Hm. Qed.

Lemma deref_Some l (h : list Complex) c : h !! l = Some c → deref l h = Ok (c, h).
Proof. intros Hl. unfold deref. by rewrite Hl. Qed.

Lemma mapM'_pure {A B} (f : A → M B) (g : A → B) (l : list A) h :
  (∀ x, x ∈ l → f x h = Ok (g x, h)) → mapM' f l h = Ok (map g l, h).
Proof.
  induction l as [|x l IH]; intros Hf; [done|].
  cbn [mapM' map]. rewrite (bind_Ok _ _ _ _ _ (Hf x (list_elem_of_here _ _))).
  rewrite (bind_Ok _ _ _ (map g l) h); [done|].
  apply IH. intros y Hy. apply Hf. by apply list_elem_of_further.
Qed.

(** ** [reaction_path] on fewer than two reactions (claim C3) *)

Section path.
Context `{E : SymEngine}.
Variable complex_str : Complex → string.

(** C3, as amended: [reaction_path] called with a list of zero or one
    reaction raises [TypeError]: the [reduce] over the complexes to add has
    nothing to fold (for one reaction, the list of the other reactions'
    complexes is empty; for none, the list of additions is empty). *)
Theorem C3_reaction_path_short_raises (reactions : list Reaction)
    (h : list Complex) :
  (length reactions ≤ 1)%nat →
  reaction_path complex_str reactions h = Raise TypeError.
Proof.
  intros Hlen. destruct reactions as [|r [|r' rs]]; [done|done|].
  cbn in Hlen. lia.
Qed.

End path.

Lemma C3_reaction_path_short_raises_witness :
  (length [Scenario.r1] ≤ 1)%nat ∧
  reaction_path Scenario.show_complex [Scenario.r1] Scenario.h0
  = Raise TypeError.
Proof.
  split; [simpl; lia|].
  apply C3_reaction_path_short_raises. simpl. lia.
Defined.

(** [reaction_path] on the single reaction [r1: A -> B] does not return. *)
Lemma C3_reaction_path_single_counterexample :
  ¬ ∃ out, reaction_path Scenario.show_complex [Scenario.r1] Scenario.h0
           = Ok out.
Proof. intros [out Hout]. discriminate Hout. Qed.

(** ** Reactions with the rate 0 (claim C10) *)

Section zero_rate.
Context `{E : SymEngine}.
Variable complex_str : Complex → string.

Lemma truthy_zero : truthy (num 0) = false.
Proof. unfold truthy. by rewrite bool_decide_eq_true_2. Qed.

(** C10: for a reaction whose rate is the expression 0, [format_kinetics]
    returns [None] and [format] renders the reaction with an empty annotation
    of the arrow, which is how it renders the reaction with no rate: the
    presence of a rate is tested by the truth value of the expression. *)
Theorem C10_zero_rate_formats_as_no_rate (rid : string) (r p : nat)
    (kp kp' : option expr) (showrate : bool) (precision : nat)
    (h : list Complex) :
  let self := mkReaction rid r p (Some (num 0)) kp in
  let bare := mkReaction rid r p None kp' in
  format_kinetics self showrate precision h = Ok (None, h) ∧
  format complex_str self showrate precision h
  = format complex_str bare showrate precision h ∧
  format complex_str self showrate precision h
  = (cr <- deref r ;; cp <- deref p ;;
     ret (rid +:+ ": " +:+ complex_str cr +:+ " ->" +:+ "" +:+ " "
            +:+ complex_str cp)) h.
Proof.
  intros self bare. unfold format_kinetics, format. cbn [rate self bare has_rate].
  rewrite truthy_zero. by repeat split.
Qed.

End zero_rate.

(** ** Concrete runs *)

Section split_monom.
Context `{E : SymEngine}.

(** Whenever the numerator has more than one monomial, [_split_reaction_monom]
    raises: [species] has become a [map] object, which has no [len]. *)
Lemma split_monom_many_raises (reaction : Reaction) (species : list string)
    (x : expr) (d : list (list Z * expr)) (h : list Complex) :
  rate reaction = Some x →
  poly_as_dict (expand (as_numer_denom (cancel x)).1) (map sym species) = Ok d →
  (1 < length d)%nat →
  _split_reaction_monom reaction species h = Raise TypeError.
Proof.
  intros Hx Hd Hlen. unfold _split_reaction_monom. rewrite Hx.
  rewrite (bind_Ok _ _ _ x h) by done.
  destruct (as_numer_denom (cancel x)) as [n dn] eqn:Hnd. cbn [fst] in Hd.
  unfold py_map, py_unpack.
  rewrite (bind_Ok _ _ _ d h) by (unfold lift; by rewrite Hd).
  rewrite bool_decide_eq_true_2 by done.
  destruct d as [|[deg c] d]; [cbn in Hlen; lia|]. reflexivity.
Qed.

End split_monom.

(** C4 at [r3: A -> B] with rate [k1*A + k2*A^2] and species [[A]]: the
    numerator has the two monomials of degree 1 and 2 in [A], and the call
    raises [TypeError]. *)
Theorem C4_split_monom_raises_TypeError :
  (length <$> (match Laurent.ppoly_as_dict Scenario.rate3 [Scenario.A] with
               | Ok d => Some d | _ => None end) = Some 2%nat) ∧
  (r3 <- Scenario.A_to_B "r3" Scenario.rate3 ;;
   _split_reaction_monom r3 ["A"]) Scenario.h0 = Raise TypeError.
Proof. split; run. Qed.

(** C9: for [r2: A -> B] with rate [k*A^2], [_fix_ma] with the species [A]
    (and room for at least one pass of its loop) leaves the reactant [2A], the
    product [A + B] and the kinetic parameter [k]. *)
Theorem C9_fix_ma_quadratic (fuel : nat) :
  (r2 <- Scenario.A_to_B "r2" Scenario.rate2 ;;
   _fix_ma (S fuel) r2 (Some ["A"])) Scenario.h0
  = Ok (mkReaction "r2" 0%nat 1%nat (Some Scenario.rate2) (Some Scenario.k),
        [ {[ "A" := 2 ]}; {[ "B" := 1; "A" := 1 ]} ]).
Proof. destruct fuel; run. Qed.

(** C8 at the reactions with rates [k/A] and [k/(A*B)]: the common
    denominator is [A*B], the first rate is rebuilt as [B*k/(A*B)], which the
    engine reduces to [k/A], and the output rates keep the denominators [A]
    and [A*B], which differ. *)
Theorem C8_same_denom_denominators_differ :
  Scenario.two_denominators Scenario.h0
  = Ok (Scenario.same_denom_out, Scenario.h0) ∧
  lcm Scenario.A (Scenario.A * Scenario.B)%E = (Scenario.A * Scenario.B)%E ∧
  (Scenario.B * Scenario.k / (Scenario.A * Scenario.B))%E
  = (Scenario.k / Scenario.A)%E ∧
  map (λ r, (λ x, (as_numer_denom x).2) <$> rate r) Scenario.same_denom_out
  = [Some Scenario.A; Some (Scenario.A * Scenario.B)%E] ∧
  cancel (Scenario.A - Scenario.A * Scenario.B)%E ≠ num 0.
Proof. repeat split; run. Qed.

(** What I1 says of a reaction whose fields are known. *)
Lemma I1_inv `{E : SymEngine} (h : list Complex) (r : Reaction) x kp c :
  rate r = Some x → kinetic_param r = Some kp → h !! reactant r = Some c →
  I1 h r → cancel (kp * ma c - x)%E = num 0.
Proof.
  unfold I1. intros -> Hk Hc (kp' & c' & Hk' & Hc' & Hz).
  rewrite Hk in Hk'. rewrite Hc in Hc'. by simplify_eq.
Qed.

(** C1 at [r: A -> B] with rate [k1*A^2 + k2*A^3]: the two reactions of
    [_split_reaction r], [r_0] for [k1*A^2] and [r_1] for [k2*A^3], hold the
    reactant object of [r]; [_fix_ma] on [r_0] turns that object into [2A];
    [r_0] then satisfies I1, and [r_1], whose reactant has changed with it
    while its kinetic parameter [k2*A^2] has not, does not: for it
    [kinetic_param * reactant.ma() - rate] is [k2*A^4 - k2*A^3]. *)
Theorem C1_shared_reactant_breaks_I1 :
  Scenario.split_then_fix Scenario.h0
  = Ok ((Scenario.fixed_first, Scenario.stale_second),
        Scenario.store_after_fix) ∧
  reactant Scenario.fixed_first = reactant Scenario.stale_second ∧
  I1 Scenario.store_after_fix Scenario.fixed_first ∧
  ¬ I1 Scenario.store_after_fix Scenario.stale_second ∧
  cancel (Scenario.k2 * Scenario.A ^ 2 * ma ({[ "A" := 2 ]} : Complex)
          - Scenario.k2 * Scenario.A ^ 3)%E
  = (Scenario.k2 * Scenario.A ^ 4 - Scenario.k2 * Scenario.A ^ 3)%E.
Proof.
  split; [run|]. split; [reflexivity|]. split; [|split].
  - eexists _, _. split; [reflexivity|]. split; [reflexivity|]. run.
  - intros HI. eapply I1_inv in HI; [|reflexivity..]. revert HI. run.
  - run.
Qed.

(** ** [remove_react_prod] with one species (claim C6) *)

Section remove_one.
Context `{E : SymEngine}.

Lemma set_item_Some l s n (h : list Complex) c :
  h !! l = Some c → set_item l s n h = Ok (tt, <[l := <[s := n]> c]> h).
Proof. intros Hl. unfold set_item. by rewrite Hl. Qed.

Lemma del_item_Some l s (h : list Complex) c :
  h !! l = Some c → del_item l s h = Ok (tt, <[l := delete s c]> h).
Proof. intros Hl. unfold del_item. by rewrite Hl. Qed.

Lemma update_kinetic_param_Some (self : Reaction) x (h : list Complex) c :
  rate self = Some x → h !! reactant self = Some c →
  update_kinetic_param self h = Ok (with_kinetic_param self (x / ma c)%E, h).
Proof.
  intros Hx Hc. unfold update_kinetic_param. rewrite Hx.
  cbn [need_rate]. unfold bind at 1. cbn [ret].
  by rewrite (bind_Ok _ _ _ _ _ (deref_Some _ _ _ Hc)).
Qed.

(** C6: [remove_react_prod(species)] on a reaction with a rate, whose
    reactant and product objects hold [R] and [P]: the call returns, the two
    objects then hold [rebalance species R P] (the smaller coefficient
    subtracted on both sides, a side that reaches zero dropping the species,
    nothing changed when the species is missing on a side), the kinetic
    parameter is the rate divided by the mass-action monomial of the new
    reactant, and no other object of the store changes. *)
Theorem C6_remove_react_prod_one_species (self : Reaction) (s : string)
    (h : list Complex) (R P : Complex) (x : expr) :
  h !! reactant self = Some R → h !! product self = Some P →
  rate self = Some x →
  ∃ h',
    remove_react_prod self (Some s) h
    = Ok (mkReaction (reactionid self) (reactant self) (product self)
            (Some x) (Some (x / ma (rebalance s R P).1)%E), h') ∧
    complexes h' self = rebalance s R P ∧
    length h' = length h ∧
    ∀ l, l ≠ reactant self → l ≠ product self → h' !! l = h !! l.
Proof.
  intros HR HP Hx. rewrite <- Hx.
  change (mkReaction (reactionid self) (reactant self) (product self)
            (rate self) (Some (?k))) with (with_kinetic_param self k).
  unfold remove_react_prod, rebalance.
  rewrite (bind_Ok _ _ _ _ _ (deref_Some _ _ _ HR)).
  rewrite (bind_Ok _ _ _ _ _ (deref_Some _ _ _ HP)).
  assert (Hlr : (reactant self < length h)%nat) by by eapply lookup_lt_Some.
  assert (Hlp : (product self < length h)%nat) by by eapply lookup_lt_Some.
  destruct (R !! s) as [nr|] eqn:Hnr; [destruct (P !! s) as [np|] eqn:Hnp|];
    cycle 1.
  - exists h. rewrite (bind_Ok _ _ _ self h) by done.
    rewrite (update_kinetic_param_Some _ x _ R) by done.
    unfold complexes. rewrite HR, HP. done.
  - exists h. rewrite (bind_Ok _ _ _ self h) by done.
    rewrite (update_kinetic_param_Some _ x _ R) by done.
    unfold complexes. rewrite HR, HP. done.
  - destruct (Z.lt_trichotomy nr np) as [Hlt|[Heq|Hgt]].
    + assert (Hne : reactant self ≠ product self).
      { intros Hal. rewrite Hal in HR. simplify_eq. lia. }
      set (h1 := <[product self := <[s := np - nr]> P]> h).
      set (h2 := <[reactant self := delete s R]> h1).
      assert (H1 : h1 !! reactant self = Some R).
      { unfold h1. by rewrite list_lookup_insert_ne. }
      exists h2. split; [|split; [|split]].
      * unfold bind, when.
        rewrite (bool_decide_eq_false_2 (np < nr)) by lia.
        rewrite (bool_decide_eq_true_2 (nr < np)) by lia.
        rewrite (bool_decide_eq_false_2 (nr = np)) by lia.
        cbn [ret]. rewrite (set_item_Some _ _ _ _ _ HP).
        fold h1. rewrite (del_item_Some _ _ _ _ H1). fold h2.
        unfold ret; cbv beta iota.
        rewrite (update_kinetic_param_Some _ x _ (delete s R)); [|done|].
        -- rewrite Z.min_l by lia. unfold put.
           rewrite bool_decide_eq_true_2 by lia. done.
        -- unfold h2. apply list_lookup_insert_eq. unfold h1.
           by rewrite length_insert.
      * unfold complexes, h2, h1.
        rewrite list_lookup_insert_eq by by rewrite length_insert.
        rewrite list_lookup_insert_ne by done.
        rewrite list_lookup_insert_eq by done. cbn [default].
        rewrite Z.min_l by lia. unfold put.
        rewrite bool_decide_eq_true_2 by lia.
        rewrite bool_decide_eq_false_2 by lia. done.
      * unfold h2, h1. by rewrite !length_insert.
      * intros l Hl1 Hl2. unfold h2, h1.
        by rewrite !list_lookup_insert_ne.
    + subst np.
      set (h1 := <[reactant self := delete s R]> h).
      assert (∃ P', h1 !! product self = Some P' ∧ delete s P' = delete s P)
        as (P' & H1 & HP').
      { unfold h1. destruct (decide (reactant self = product self)) as [Hal|Hne].
        - exists (delete s R). rewrite <- Hal.
          rewrite list_lookup_insert_eq by done. split; [done|].
          rewrite Hal in HR. simplify_eq. by rewrite delete_delete_eq.
        - exists P. by rewrite list_lookup_insert_ne. }
      set (h2 := <[product self := delete s P]> h1).
      assert (H2 : h2 !! reactant self = Some (delete s R)).
      { unfold h2, h1. destruct (decide (reactant self = product self)) as [Hal|Hne].
        - rewrite <- Hal. rewrite list_lookup_insert_eq by by rewrite length_insert.
          rewrite Hal in HR. by simplify_eq.
        - rewrite list_lookup_insert_ne by done.
          by rewrite list_lookup_insert_eq. }
      exists h2. split; [|split; [|split]].
      * unfold bind, when.
        rewrite (bool_decide_eq_false_2 (nr < nr)) by lia.
        rewrite (bool_decide_eq_true_2 (nr = nr)) by lia.
        unfold ret; cbv beta iota. rewrite (del_item_Some _ _ _ _ HR).
        fold h1. rewrite (del_item_Some _ _ _ _ H1). rewrite HP'. fold h2.
        rewrite (update_kinetic_param_Some _ x _ (delete s R)) by done.
        rewrite Z.min_l by lia. unfold put.
        rewrite bool_decide_eq_true_2 by lia. done.
      * unfold complexes. rewrite H2. unfold h2.
        rewrite list_lookup_insert_eq
          by (unfold h1; by rewrite length_insert).
        cbn [default]. rewrite Z.min_l by lia. unfold put.
        rewrite bool_decide_eq_true_2 by lia. done.
      * unfold h2, h1. by rewrite !length_insert.
      * intros l Hl1 Hl2. unfold h2, h1.
        by rewrite !list_lookup_insert_ne.
    + assert (Hne : reactant self ≠ product self).
      { intros Hal. rewrite Hal in HR. simplify_eq. lia. }
      set (h1 := <[reactant self := <[s := nr - np]> R]> h).
      set (h2 := <[product self := delete s P]> h1).
      assert (H1 : h1 !! product self = Some P).
      { unfold h1. by rewrite list_lookup_insert_ne. }
      assert (H2 : h2 !! reactant self = Some (<[s := nr - np]> R)).
      { unfold h2, h1. rewrite list_lookup_insert_ne by done.
        by rewrite list_lookup_insert_eq. }
      exists h2. split; [|split; [|split]].
      * unfold bind, when.
        rewrite (bool_decide_eq_true_2 (np < nr)) by lia.
        rewrite (bool_decide_eq_false_2 (nr < np)) by lia.
        rewrite (bool_decide_eq_false_2 (nr = np)) by lia.
        unfold ret; cbv beta iota. rewrite (set_item_Some _ _ _ _ _ HR).
        fold h1. rewrite (del_item_Some _ _ _ _ H1). fold h2.
        rewrite (update_kinetic_param_Some _ x _ (<[s := nr - np]> R)) by done.
        rewrite Z.min_r by lia. unfold put.
        rewrite bool_decide_eq_false_2 by lia. done.
      * unfold complexes. rewrite H2. unfold h2.
        rewrite list_lookup_insert_eq
          by (unfold h1; by rewrite length_insert).
        cbn [default]. rewrite Z.min_r by lia. unfold put.
        rewrite bool_decide_eq_false_2 by lia.
        rewrite bool_decide_eq_true_2 by lia. done.
      * unfold h2, h1. by rewrite !length_insert.
      * intros l Hl1 Hl2. unfold h2, h1.
        by rewrite !list_lookup_insert_ne.
Qed.
End remove_one.

Lemma C6_remove_react_prod_one_species_witness :
  let self := mkReaction "r" 0%nat 1%nat (Some Scenario.k) None in
  let h : list Complex := [ {[ "A" := 3 ]}; {[ "A" := 1 ]} ] in
  h !! reactant self = Some ({[ "A" := 3 ]} : Complex) ∧
  h !! product self = Some ({[ "A" := 1 ]} : Complex) ∧
  rate self = Some Scenario.k ∧
  ∃ h',
    remove_react_prod self (Some "A") h
    = Ok (mkReaction (reactionid self) (reactant self) (product self)
            (Some Scenario.k)
            (Some (Scenario.k
                   / ma (rebalance "A" {[ "A" := 3 ]} {[ "A" := 1 ]}).1)%E),
          h') ∧
    complexes h' self = rebalance "A" {[ "A" := 3 ]} {[ "A" := 1 ]} ∧
    length h' = length h ∧
    ∀ l, l ≠ reactant self → l ≠ product self → h' !! l = h !! l.
Proof.
  intros self h. split; [reflexivity|]. split; [reflexivity|].
  split; [reflexivity|].
  apply (C6_remove_react_prod_one_species self "A" h); reflexivity.
Defined.

(** ** [merge_reactions] (claim C7) *)

Section merge.
Context `{E : SymEngine}.

Lemma foldM_pure {A S} (f : S → A → M S) (g : S → A → S) (l : list A) s
    (h : list Complex) :
  (∀ s x, x ∈ l → f s x h = Ok (g s x, h)) →
  foldM f l s h = Ok (foldl g s l, h).
Proof.
  revert s. induction l as [|x l IH]; intros s Hf; [done|].
  cbn [foldM foldl]. rewrite (bind_Ok _ _ _ _ _ (Hf s x (list_elem_of_here _ _))).
  apply IH. intros s' y Hy. apply Hf. by apply list_elem_of_further.
Qed.

Lemma complexes_allocated (h : list Complex) (r : Reaction) :
  allocated h r →
  h !! reactant r = Some (complexes h r).1 ∧
  h !! product r = Some (complexes h r).2.
Proof. intros [[c Hc] [d Hd]]. unfold complexes. by rewrite Hc, Hd. Qed.

Lemma key_of_allocated (h : list Complex) (r : Reaction) :
  allocated h r → key_of r h = Ok (complexes h r, h).
Proof.
  intros [Hr Hp]%complexes_allocated. unfold key_of.
  rewrite (bind_Ok _ _ _ _ _ (deref_Some _ _ _ Hr)).
  rewrite (bind_Ok _ _ _ _ _ (deref_Some _ _ _ Hp)).
  unfold ret. by destruct (complexes h r).
Qed.

Lemma first_occurrences_snoc `{EqDecision A} (l : list A) (x : A) :
  first_occurrences (l ++ [x])
  = if decide (x ∈ l) then first_occurrences l else first_occurrences l ++ [x].
Proof.
  unfold first_occurrences. rewrite reverse_snoc. cbn [remove_dups].
  destruct (decide_rel elem_of x (reverse l)) as [Hin|Hin];
    rewrite elem_of_reverse in Hin.
  - by rewrite decide_True.
  - rewrite decide_False by done. by rewrite reverse_cons.
Qed.

Lemma elem_of_first_occurrences `{EqDecision A} (l : list A) (x : A) :
  x ∈ first_occurrences l ↔ x ∈ l.
Proof.
  unfold first_occurrences.
  by rewrite elem_of_reverse, elem_of_remove_dups, elem_of_reverse.
Qed.

Lemma NoDup_first_occurrences `{EqDecision A} (l : list A) :
  NoDup (first_occurrences l).
Proof.
  unfold first_occurrences. rewrite reverse_Permutation.
  apply NoDup_remove_dups.
Qed.

Lemma dict_append_map (kx : merge_key) (x : Reaction)
    (F : merge_key → list Reaction) (ks : list merge_key) :
  NoDup ks →
  dict_append kx x (map (λ k, (k, F k)) ks)
  = map (λ k, (k, F k ++ if decide (kx = k) then [x] else [])) ks
    ++ (if decide (kx ∈ ks) then [] else [(kx, [x])]).
Proof.
  induction 1 as [|k ks Hk Hks IH]; [done|].
  cbn [map dict_append app]. case_bool_decide as Hkx.
  - subst k. rewrite decide_True by done.
    rewrite (decide_True (P := kx ∈ kx :: ks)) by apply list_elem_of_here.
    rewrite app_nil_r. f_equal. apply map_ext_in. intros k Hin%list_elem_of_In.
    rewrite decide_False; [by rewrite app_nil_r|]. by intros <-.
  - rewrite IH. rewrite (decide_False (P := kx = k)) by done.
    rewrite app_nil_r. f_equal. f_equal.
    destruct (decide (kx ∈ ks)) as [Hin|Hin].
    + rewrite decide_True; [done|]. by apply list_elem_of_further.
    + rewrite decide_False; [done|]. rewrite elem_of_cons. by intros [?|?].
Qed.

Lemma groups_snoc (h : list Complex) (rs : list Reaction) (x : Reaction) :
  groups h (rs ++ [x]) = dict_append (complexes h x) x (groups h rs).
Proof.
  unfold groups at 2. rewrite dict_append_map by apply NoDup_first_occurrences.
  unfold groups. rewrite map_app. cbn [map]. rewrite first_occurrences_snoc.
  assert (Hmem : ∀ k, members h k (rs ++ [x])
    = members h k rs ++ if decide (complexes h x = k) then [x] else []).
  { intros k. unfold members. by rewrite filter_app. }
  destruct (decide (complexes h x ∈ map (complexes h) rs)) as [Hin|Hin].
  - rewrite decide_True by by apply elem_of_first_occurrences.
    rewrite app_nil_r. apply map_ext. intros k. by rewrite Hmem.
  - rewrite decide_False by by rewrite elem_of_first_occurrences.
    rewrite map_app. cbn [map]. f_equal.
    + apply map_ext. intros k. by rewrite Hmem.
    + rewrite Hmem. rewrite decide_True by done.
      replace (members h (complexes h x) rs) with (@nil Reaction); [done|].
      symmetry. unfold members.
      destruct (filter _ rs) as [|r l] eqn:Hf; [done|]. exfalso.
      assert (Hr : r ∈ filter (λ r, complexes h r = complexes h x) rs)
        by (rewrite Hf; apply list_elem_of_here).
      apply list_elem_of_filter in Hr as [Heq Hr]. apply Hin. rewrite <- Heq.
      apply list_elem_of_fmap. by exists r.
Qed.

Lemma group_reactions_groups (h : list Complex) (rs : list Reaction) :
  Forall (allocated h) rs →
  group_reactions rs h = Ok (groups h rs, h).
Proof.
  intros Hall. unfold group_reactions.
  rewrite (foldM_pure _ (λ d r, dict_append (complexes h r) r d)).
  - f_equal. f_equal. clear Hall. induction rs as [|x rs IH] using rev_ind; [done|].
    by rewrite foldl_app, groups_snoc, <- IH.
  - intros d r Hr. rewrite Forall_forall in Hall.
    by rewrite (bind_Ok _ _ _ _ _ (key_of_allocated _ _ (Hall r Hr))).
Qed.

Lemma rates_present (e : exn) (ms : list Reaction) (h : list Complex) :
  Forall (λ r, is_Some (rate r)) ms →
  mapM' (λ m, need_rate (rate m) e) ms h = Ok (omap rate ms, h).
Proof.
  induction 1 as [|m ms [x Hx] _ IH]; [done|].
  cbn [mapM' omap list_omap]. rewrite Hx. cbn [need_rate].
  rewrite (bind_Ok _ _ _ x h) by done. by rewrite (bind_Ok _ _ _ _ _ IH).
Qed.

Lemma Reaction_init_Some rid (r p : nat) (v : expr) (h : list Complex) c :
  h !! r = Some c →
  Reaction_init rid r p (Some v) h
  = Ok (mkReaction rid r p (Some v) (Some (v / ma c)%E), h).
Proof.
  intros Hr. unfold Reaction_init, set_rate. cbn [reactant reactionid product].
  by rewrite (bind_Ok _ _ _ _ _ (deref_Some _ _ _ Hr)).
Qed.

Lemma merge_group_spec (h : list Complex) (k : merge_key)
    (ms : list Reaction) :
  ms ≠ [] → Forall (allocated h) ms → Forall (λ r, is_Some (rate r)) ms →
  Forall (λ r, complexes h r = k) ms →
  merge_group ms h = Ok (group_out h (k, ms), h).
Proof.
  intros Hne Hal Hrate Hk. destruct ms as [|first rest]; [done|].
  pose proof (Forall_inv Hal) as [Hr Hp]%complexes_allocated.
  pose proof (Forall_inv Hk) as Hfirst. cbv beta in Hfirst.
  unfold merge_group, group_out. cbn [fst snd].
  rewrite (bind_Ok _ _ _ _ _ (deref_Some _ _ _ Hr)).
  rewrite (bind_Ok _ _ _ _ _ (deref_Some _ _ _ Hp)).
  rewrite Hfirst. case_bool_decide as Hloop.
  - rewrite decide_True by done.
    rewrite (bind_Ok _ _ _ _ _ (rates_present _ _ _ Hrate)).
    rewrite (bind_Ok _ _ _ _ _ (Reaction_init_Some _ _ _ _ _ _ Hr)).
    unfold merged, ret. rewrite Hfirst. reflexivity.
  - by destruct (decide (k.1 ≠ k.2)).
Qed.

Lemma concat_group_out (h : list Complex) (rs : list Reaction)
    (ks : list merge_key) :
  concat (map (group_out h) (map (λ k, (k, members h k rs)) ks))
  = omap (λ k, merged h (members h k rs))
      (filter (λ k : Complex * Complex, k.1 ≠ k.2) ks).
Proof.
  induction ks as [|k ks IH]; [done|].
  cbn [map concat]. rewrite IH, filter_cons. unfold group_out at 1.
  cbn [fst snd]. destruct (decide (k.1 ≠ k.2)); [|done].
  cbn [omap list_omap]. by destruct (merged h (members h k rs)).
Qed.

Lemma merge_reactions_spec (rs : list Reaction) (h : list Complex) :
  Forall (allocated h) rs → Forall (λ r, is_Some (rate r)) rs →
  merge_reactions rs h = Ok (sorted_by reactionid (merge_spec h rs), h).
Proof.
  intros Hal Hrate. unfold merge_reactions.
  rewrite (bind_Ok _ _ _ _ _ (group_reactions_groups _ _ Hal)).
  rewrite (bind_Ok _ _ _ (map (group_out h) (groups h rs)) h).
  - unfold ret, groups, merge_spec. by rewrite concat_group_out.
  - apply mapM'_pure. intros [k ms] Hg. cbn [snd].
    apply list_elem_of_fmap in Hg as (k' & [= -> ->] & Hk').
    apply elem_of_first_occurrences, list_elem_of_fmap in Hk'
      as (r & -> & Hr).
    apply merge_group_spec.
    + intros Hnil.
      assert (Hin : r ∈ members h (complexes h r) rs)
        by by apply list_elem_of_filter.
      rewrite Hnil in Hin. by apply elem_of_nil in Hin.
    + rewrite Forall_forall in Hal |- *.
      intros m [_ Hm]%list_elem_of_filter. by apply Hal.
    + rewrite Forall_forall in Hrate |- *.
      intros m [_ Hm]%list_elem_of_filter. by apply Hrate.
    + rewrite Forall_forall. by intros m [Hm _]%list_elem_of_filter.
Qed.

End merge.

(** [sorted] gives an ordered rearrangement. *)

Section sorting.
Context {A : Type} (key : A → string).

Lemma insert_by_HdRel (a x : A) (l : list A) :
  key_le key a x → HdRel (key_le key) a l → HdRel (key_le key) a (insert_by key x l).
Proof.
  intros Hax Hl. destruct l as [|y l]; cbn [insert_by]; [by constructor|].
  destruct (String.leb (key y) (key x)); constructor; [|done].
  by inversion Hl.
Qed.

Lemma insert_by_Sorted (x : A) (l : list A) :
  Sorted (key_le key) l → Sorted (key_le key) (insert_by key x l).
Proof.
  induction 1 as [|y l Hl IH Hy]; cbn [insert_by]; [by repeat constructor|].
  destruct (String.leb (key y) (key x)) eqn:Hyx.
  - constructor; [done|]. by apply insert_by_HdRel.
  - constructor; [by constructor|]. constructor. unfold key_le.
    destruct (String.leb_total (key x) (key y)) as [?|Hc]; [done|congruence].
Qed.

Lemma sorted_by_Sorted (l : list A) : Sorted (key_le key) (sorted_by key l).
Proof.
  unfold sorted_by. generalize (Sorted_nil (key_le key)).
  generalize (@nil A) as acc. induction l as [|x l IH]; intros acc Hacc; [done|].
  cbn [foldl]. apply IH. by apply insert_by_Sorted.
Qed.

Lemma insert_by_Permutation (x : A) (l : list A) : insert_by key x l ≡ₚ x :: l.
Proof.
  induction l as [|y l IH]; cbn [insert_by]; [done|].
  destruct (String.leb (key y) (key x)); [|done].
  rewrite IH. apply Permutation_swap.
Qed.

Lemma sorted_by_Permutation (l : list A) : sorted_by key l ≡ₚ l.
Proof.
  unfold sorted_by. rewrite <- (app_nil_l l) at 2.
  generalize (@nil A) as acc. induction l as [|x l IH]; intros acc.
  - by rewrite app_nil_r.
  - cbn [foldl]. rewrite IH, insert_by_Permutation.
    apply Permutation_middle.
Qed.

End sorting.

(** C7: on reactions with rates whose references are live,
    [merge_reactions] returns and leaves the store as it is.  The list it
    returns is a rearrangement of [merge_spec]: for each pair of complexes met
    in the input, leaving out the pairs with reactant equal to product,
    exactly one reaction, whose id is the concatenation of the ids of the
    reactions with that pair, in input order, with the complexes of the first
    of them and the cancelled sum of their rates; and it is sorted by id (it
    is [merge_spec] put through the stable sort). *)
Theorem C7_merge_reactions_groups `{E : SymEngine} (rs : list Reaction)
    (h : list Complex) :
  Forall (allocated h) rs → Forall (λ r, is_Some (rate r)) rs →
  ∃ out, merge_reactions rs h = Ok (out, h) ∧
         out ≡ₚ merge_spec h rs ∧
         Sorted id_le out ∧
         out = sorted_by reactionid (merge_spec h rs).
Proof.
  intros Hal Hrate. eexists. split; [by apply merge_reactions_spec|].
  split; [apply sorted_by_Permutation|].
  split; [apply (sorted_by_Sorted reactionid)|done].
Qed.

(** The example of C7: [r1] and [r2], both [A -> B], with the rates [k1*A]
    and [k2*A], merge into [r1r2] with the rate [(k1 + k2)*A]. *)
Lemma C7_merge_reactions_groups_witness :
  let rs := [Scenario.m1; Scenario.m2] in
  Forall (allocated Scenario.h_two) rs ∧
  Forall (λ r, is_Some (rate r)) rs ∧
  (∃ out, merge_reactions rs Scenario.h_two = Ok (out, Scenario.h_two) ∧
          out ≡ₚ merge_spec Scenario.h_two rs ∧
          Sorted id_le out ∧
          out = sorted_by reactionid (merge_spec Scenario.h_two rs)) ∧
  merge_spec Scenario.h_two rs = [Scenario.m12] ∧
  merge_reactions rs Scenario.h_two = Ok ([Scenario.m12], Scenario.h_two).
Proof.
  intros rs.
  assert (Hal : Forall (allocated Scenario.h_two) rs).
  { constructor; [split; eexists; reflexivity|].
    constructor; [split; eexists; reflexivity|]. constructor. }
  assert (Hrate : Forall (λ r, is_Some (rate r)) rs).
  { constructor; [eexists; reflexivity|].
    constructor; [eexists; reflexivity|]. constructor. }
  split; [exact Hal|]. split; [exact Hrate|].
  split; [exact (C7_merge_reactions_groups rs Scenario.h_two Hal Hrate)|].
  split; apply (bool_decide_unpack _); vm_compute; exact I.
Defined.

(** ** Termination of [_fix_denom] *)

Section total.

Lemma total_insert (c : Complex) s n :
  c !! s = None → total (<[s := n]> c) = n + total c.
Proof.
  intros Hs. unfold total. rewrite map_fold_insert_L; [done| |done].
  intros. lia.
Qed.

Lemma total_delete (c : Complex) s n :
  c !! s = Some n → total (delete s c) = total c - n.
Proof.
  intros Hs. rewrite <- (insert_delete_id c s n) at 2 by done.
  rewrite total_insert by apply lookup_delete_eq. lia.
Qed.

Lemma total_update (c : Complex) s n m :
  c !! s = Some n → total (<[s := m]> c) = total c - n + m.
Proof.
  intros Hs. rewrite <- insert_delete_eq.
  rewrite total_insert by apply lookup_delete_eq.
  rewrite (total_delete c s n) by done. lia.
Qed.

Lemma total_nonneg (c : Complex) : positive_coeffs c → 0 ≤ total c.
Proof.
  induction c as [|s n c Hs IH] using map_ind; intros Hpos; [done|].
  rewrite total_insert by done.
  assert (0 < n) by (apply (Hpos s); apply lookup_insert_eq).
  assert (0 ≤ total c); [|lia].
  apply IH. intros s' n' Hs'. apply (Hpos s').
  rewrite lookup_insert_ne; [done|]. intros <-. congruence.
Qed.

Lemma decrement_total (R : Complex) s :
  positive_coeffs R → is_Some (R !! s) →
  let R' := if bool_decide (coefficient R s = 1) then delete s R
            else <[s := coefficient R s - 1]> R in
  positive_coeffs R' ∧ total R' = total R - 1.
Proof.
  intros Hpos [n Hn]. unfold coefficient. rewrite Hn. cbn [default from_option].
  unfold id. cbv zeta. assert (0 < n) by exact (Hpos s n Hn).
  case_bool_decide as H1.
  - subst n. split; [|by apply total_delete].
    intros s' n' [_ Hs']%lookup_delete_Some. by apply (Hpos s').
  - split; [|rewrite (total_update R s n) by done; lia].
    intros s' n' [[_ <-]|[_ Hs']]%lookup_insert_Some; [lia|].
    by apply (Hpos s').
Qed.

End total.

Section denom.
Context `{E : SymEngine}.
Variable self : Reaction.
Variable species : list string.
Hypothesis distinct : reactant self ≠ product self.

Lemma denom_cond_inv (h : list Complex) (R : Complex) ml s :
  denom_inv self h R →
  ∃ b, denom_cond self ml s h = Ok (b, h) ∧
       (b = true → is_Some (R !! s)).
Proof.
  intros (HR & [P HP] & _). unfold denom_cond.
  destruct (in_mulargs s ml); [|by exists false].
  rewrite (bind_Ok _ _ _ _ _ (deref_Some _ _ _ HR)).
  destruct (R !! s) as [n|] eqn:Hn; [|by exists false].
  rewrite (bind_Ok _ _ _ _ _ (deref_Some _ _ _ HP)). by eexists.
Qed.

Lemma decrement_Some l s (h : list Complex) c :
  h !! l = Some c →
  decrement l s h
  = Ok (tt, <[l := if bool_decide (coefficient c s = 1) then delete s c
                   else <[s := coefficient c s - 1]> c]> h).
Proof.
  intros Hl. unfold decrement.
  rewrite (bind_Ok _ _ _ _ _ (deref_Some _ _ _ Hl)).
  case_bool_decide; [by apply del_item_Some|by apply set_item_Some].
Qed.

Lemma lift_halts {A} (o : outcome A) (h : list Complex) :
  o ≠ OutOfFuel → lift o h ≠ OutOfFuel.
Proof. by destruct o. Qed.

Lemma args_and_bases_halts (e : expr) : args_and_bases e ≠ OutOfFuel.
Proof.
  assert (Hm : ∀ l, omapM arg0 l ≠ OutOfFuel).
  { induction l as [|x l IH]; [done|]. cbn [omapM]. unfold arg0 at 1.
    destruct (args x); [done|]. cbn [obind]. by destruct (omapM arg0 l). }
  unfold args_and_bases.
  pose proof (Hm (filter (λ i, func_name i = Mul) (args e))) as H1.
  pose proof (Hm (filter (λ i, func_name i = Pow) (args e))) as H2.
  destruct (omapM arg0 (filter (λ i, func_name i = Mul) (args e)));
    [|done|done].
  cbn [obind].
  by destruct (omapM arg0 (filter (λ i, func_name i = Pow) (args e))).
Qed.

(** One turn of the [for] loop of [_fix_denom]. *)
Lemma fix_denom_body_spec (st : loop_state) (s : string) (h : list Complex)
    (R : Complex) :
  denom_inv self h R →
  match fix_denom_body self species st s h with
  | Ok (st', h') =>
      ∃ R', denom_inv self h' R' ∧ total R' ≤ total R ∧
            (denom_cond self st.2 s h = Ok (true, h) → total R' < total R) ∧
            (denom_cond self st.2 s h = Ok (false, h) → st' = st ∧ h' = h)
  | Raise _ => True
  | OutOfFuel => False
  end.
Proof using distinct.
  intros Hinv. destruct st as [remainder ml]. unfold fix_denom_body.
  destruct (denom_cond_inv h R ml s Hinv) as (b & Hb & HbR).
  rewrite (bind_Ok _ _ _ _ _ Hb). cbn [snd]. rewrite Hb.
  destruct b.
  - destruct Hinv as (HR & [P HP] & Hpos).
    destruct (decrement_total R s Hpos (HbR eq_refl)) as [Hpos' Htot].
    set (R' := if bool_decide (coefficient R s = 1) then delete s R
               else <[s := coefficient R s - 1]> R) in *.
    rewrite (bind_Ok _ _ _ _ _ (decrement_Some _ s _ _ HR)). fold R'.
    set (h1 := <[reactant self := R']> h).
    assert (H1 : h1 !! product self = Some P)
      by (unfold h1; by rewrite list_lookup_insert_ne).
    rewrite (bind_Ok _ _ _ _ _ (decrement_Some _ s _ _ H1)).
    set (h2 := <[product self := _]> h1).
    assert (Hinv' : denom_inv self h2 R').
    { split; [|split; [|done]].
      - unfold h2, h1. rewrite list_lookup_insert_ne by done.
        apply list_lookup_insert_eq. by eapply lookup_lt_Some.
      - unfold h2. eexists. apply list_lookup_insert_eq.
        by eapply lookup_lt_Some. }
    assert (Hfin : ∀ st', ∃ R'0, denom_inv self h2 R'0 ∧ total R'0 ≤ total R ∧
      (@Ok (bool * list Complex) (true, h) = Ok (true, h)
       → total R'0 < total R) ∧
      (@Ok (bool * list Complex) (true, h) = Ok (false, h)
       → st' = (remainder, ml) ∧ h2 = h)).
    { intros st'. exists R'. split; [done|]. split; [lia|].
      split; [intros _; lia|]. intros [=]. }
    case_bool_decide.
    + pose proof (args_and_bases_halts (factor (remainder / sym s)%E)) as Hab.
      unfold bind, lift.
      destruct (args_and_bases (factor (remainder / sym s)%E)); [|done|done].
      unfold ret. apply Hfin.
    + case_bool_decide; unfold ret; apply Hfin.
  - unfold ret. exists R. split; [done|]. split; [lia|].
    split; [intros [=]|done].
Qed.

(** A pass of the [for] loop. *)
Lemma fix_denom_pass (l : list string) (st : loop_state) (h : list Complex)
    (R : Complex) :
  denom_inv self h R →
  match foldM (fix_denom_body self species) l st h with
  | Ok (st', h') =>
      ∃ R', denom_inv self h' R' ∧ total R' ≤ total R ∧
            (anyM (denom_cond self st.2) l h = Ok (true, h) →
             total R' < total R)
  | Raise _ => True
  | OutOfFuel => False
  end.
Proof using distinct.
  revert st h R. induction l as [|s l IH]; intros st h R Hinv.
  { cbn. exists R. split; [done|]. split; [lia|]. intros [=]. }
  cbn [foldM anyM]. pose proof (fix_denom_body_spec st s h R Hinv) as Hbody.
  unfold bind at 1.
  destruct (fix_denom_body self species st s h) as [[st1 h1]|e|]; [|done|done].
  destruct Hbody as (R1 & Hinv1 & Hle & Htrue & Hfalse).
  specialize (IH st1 h1 R1 Hinv1).
  destruct (foldM (fix_denom_body self species) l st1 h1)
    as [[st' h']|e|]; [|done|done].
  destruct IH as (R' & Hinv' & Hle' & Hany). exists R'.
  split; [done|]. split; [lia|].
  destruct (denom_cond_inv h R st.2 s Hinv) as (b & Hb & _).
  rewrite (bind_Ok _ _ _ _ _ Hb). destruct b.
  - intros _. specialize (Htrue Hb). lia.
  - destruct (Hfalse Hb) as [-> ->]. intros Hl. specialize (Hany Hl). lia.
Qed.

(** The [while] loop: with more turns allowed than the sum of the reactant's
    coefficients the bound is never reached, and the result does not depend
    on it. *)
Lemma fix_denom_loop_halts (fuel fuel' : nat) (st : loop_state)
    (h : list Complex) (R : Complex) :
  denom_inv self h R → total R < Z.of_nat fuel → total R < Z.of_nat fuel' →
  fix_denom_loop fuel self species st h
  = fix_denom_loop fuel' self species st h ∧
  fix_denom_loop fuel self species st h ≠ OutOfFuel.
Proof using distinct.
  revert fuel' st h R.
  induction fuel as [|fuel IH]; intros fuel' st h R Hinv Hf Hf'.
  { pose proof (total_nonneg R (proj2 (proj2 Hinv))). lia. }
  destruct fuel' as [|fuel'].
  { pose proof (total_nonneg R (proj2 (proj2 Hinv))). lia. }
  cbn [fix_denom_loop].
  assert (∃ b, anyM (denom_cond self st.2) species h = Ok (b, h)) as [b Hb].
  { clear -Hinv. induction species as [|s l IHl]; [by exists false|].
    cbn [anyM]. destruct (denom_cond_inv h R st.2 s Hinv) as (b & Hb & _).
    rewrite (bind_Ok _ _ _ _ _ Hb). destruct b; [by exists true|done]. }
  rewrite !(bind_Ok _ _ _ _ _ Hb). destruct b; [|done].
  pose proof (fix_denom_pass species st h R Hinv) as Hpass.
  unfold bind.
  destruct (foldM (fix_denom_body self species) species st h)
    as [[st' h']|e|]; [|done|done].
  destruct Hpass as (R' & Hinv' & _ & Hlt). specialize (Hlt Hb).
  apply (IH fuel' st' h' R' Hinv'); lia.
Qed.

End denom.


Section denom_halts.
Context `{E : SymEngine}.

Lemma bind_halts {A B} (m : M A) (k : A → M B) (h : list Complex) :
  m h ≠ OutOfFuel → (∀ a h', k a h' ≠ OutOfFuel) →
  bind m k h ≠ OutOfFuel.
Proof. intros Hm Hk. unfold bind. by destruct (m h) as [[a h']|e|]. Qed.

Lemma need_rate_halts (r : option expr) e (h : list Complex) :
  need_rate r e h ≠ OutOfFuel.
Proof. by destruct r. Qed.

Lemma deref_halts l (h : list Complex) : deref l h ≠ OutOfFuel.
Proof. unfold deref. by destruct (h !! l). Qed.

Lemma set_rate_halts (self : Reaction) v (h : list Complex) :
  set_rate self v h ≠ OutOfFuel.
Proof.
  destruct v; [|done]. cbn [set_rate].
  apply bind_halts; [apply deref_halts|done].
Qed.

Lemma set_kinetic_param_halts (self : Reaction) v (h : list Complex) :
  set_kinetic_param self v h ≠ OutOfFuel.
Proof.
  unfold set_kinetic_param. apply bind_halts; [apply deref_halts|].
  intros c h'. apply set_rate_halts.
Qed.

(** [_fix_denom] terminates on a reaction whose reactant and product are two
    objects of the store and whose reactant has positive coefficients only:
    every bound on the turns of its loop above the sum of the reactant's
    coefficients gives the same result, which is a value or an exception.
    Each turn of the loop takes one species out of the reactant. *)
Theorem fix_denom_terminates (self : Reaction) (species : list string)
    (h : list Complex) (R : Complex) (fuel fuel' : nat) :
  reactant self ≠ product self →
  h !! reactant self = Some R → is_Some (h !! product self) →
  positive_coeffs R →
  total R < Z.of_nat fuel → total R < Z.of_nat fuel' →
  _fix_denom fuel self species h = _fix_denom fuel' self species h ∧
  _fix_denom fuel self species h ≠ OutOfFuel.
Proof.
  intros Hne HR HP Hpos Hf Hf'. unfold _fix_denom.
  destruct (kinetic_param self) as [k|]; [|done]. cbn [need_rate].
  rewrite !(bind_Ok _ _ _ k h) by done.
  destruct (as_numer_denom k) as [numer denom].
  assert (Hrest : ∀ h',
    (r <- need_rate (rate self) TypeError ;;
     c <- deref (reactant self) ;;
     set_kinetic_param self (r / ma c)%E) h' ≠ OutOfFuel).
  { intros h'. apply bind_halts; [apply need_rate_halts|]. intros r h1.
    apply bind_halts; [apply deref_halts|]. intros c h2.
    apply set_kinetic_param_halts. }
  case_bool_decide as Hone.
  - pose proof (args_and_bases_halts (cancel denom)) as Hab.
    unfold bind, lift.
    destruct (args_and_bases (cancel denom)) as [ml|e|]; [|done|done].
    destruct (fix_denom_loop_halts self species Hne fuel fuel'
                (cancel denom, cancel denom :: ml) h R) as [Heq Hh];
      [done|done|done|].
    rewrite <- Heq. split; [done|].
    destruct (fix_denom_loop fuel self species _ h) as [[st' h']|e|];
      [|done|done].
    unfold ret. apply Hrest.
  - split; [done|]. unfold bind at 1, ret. apply Hrest.
Qed.

End denom_halts.

Lemma fix_denom_terminates_witness :
  let self := mkReaction "r" 0%nat 1%nat
                (Some (Scenario.k * Scenario.A)%E)
                (Some (Scenario.k / Scenario.B)%E) in
  reactant self ≠ product self ∧
  Scenario.h_AB !! reactant self = Some Scenario.cAB ∧
  is_Some (Scenario.h_AB !! product self) ∧
  positive_coeffs Scenario.cAB ∧
  total Scenario.cAB < Z.of_nat 3 ∧ total Scenario.cAB < Z.of_nat 5 ∧
  _fix_denom 3 self ["B"] Scenario.h_AB
  = _fix_denom 5 self ["B"] Scenario.h_AB ∧
  _fix_denom 3 self ["B"] Scenario.h_AB ≠ OutOfFuel.
Proof.
  intros self.
  assert (H1 : reactant self ≠ product self) by (intros [=]).
  assert (H2 : Scenario.h_AB !! reactant self = Some Scenario.cAB)
    by reflexivity.
  assert (H3 : is_Some (Scenario.h_AB !! product self))
    by (eexists; reflexivity).
  assert (H4 : positive_coeffs Scenario.cAB)
    by (apply (bool_decide_unpack _); vm_compute; exact I).
  assert (H5 : total Scenario.cAB < Z.of_nat 3) by (vm_compute; reflexivity).
  assert (H6 : total Scenario.cAB < Z.of_nat 5) by (vm_compute; reflexivity).
  repeat (split; [assumption|]).
  exact (fix_denom_terminates self ["B"] Scenario.h_AB Scenario.cAB 3 5
           H1 H2 H3 H4 H5 H6).
Defined.

(** ** The Laurent engine *)

Module LaurentFacts.
Import Laurent.


Lemma as_term_singleton (m : mono) (c : nz) :
  as_term {[ m := c ]} = Some (nz_to_Z c, m).
Proof. unfold as_term. by rewrite map_to_list_singleton. Qed.

Lemma pfunc_singleton (m : mono) (c : nz) :
  pfunc {[ m := c ]} = term_func (nz_to_Z c) m.
Proof. unfold pfunc. by rewrite map_to_list_singleton. Qed.

Lemma pargs_singleton (m : mono) (c : nz) :
  pargs {[ m := c ]} = term_args (nz_to_Z c) m.
Proof. unfold pargs. by rewrite map_to_list_singleton. Qed.

Lemma scale_singleton (c : Z) (u m : mono) (a b : nz) :
  nz_of_Z (c * nz_to_Z a) = Some b →
  scale c u {[ m := a ]} = {[ fs_add u m := b ]}.
Proof.
  intros Hb. unfold scale. rewrite (omap_singleton_Some _ _ _ b) by done.
  by rewrite kmap_singleton.
Qed.

Lemma k_over_A_succ p :
  fs_add (fs_neg {[ "A" := NzPos 1 ]}) (Scenario.k_over_A p)
  = Scenario.k_over_A (Pos.succ p).
Proof. destruct p; vm_compute; reflexivity. Qed.

Lemma k_over_A_items p :
  map_to_list (Scenario.k_over_A p) = [("k", NzPos 1); ("A", NzNeg p)].
Proof. vm_compute. reflexivity. Qed.

Lemma k_over_A_func p : term_func 1 (Scenario.k_over_A p) = Mul.
Proof. unfold term_func. by rewrite k_over_A_items. Qed.

Lemma nz_of_to_Z (a : nz) : nz_of_Z (nz_to_Z a) = Some a.
Proof. by destruct a. Qed.

Lemma power_eq (s : string) (e : nz) :
  power (s, e) = {[ {[ s := e ]} := NzPos 1 ]}.
Proof. unfold power, fs_single. cbn [fst snd]. by rewrite nz_of_to_Z. Qed.

Lemma pfunc_power (s : string) (e : nz) :
  pfunc (power (s, e))
  = if bool_decide (nz_to_Z e = 1) then Symbol else Pow.
Proof.
  rewrite power_eq, pfunc_singleton. unfold term_func.
  by rewrite map_to_list_singleton.
Qed.

Lemma pargs_power (s : string) (e : nz) :
  nz_to_Z e ≠ 1 → pargs (power (s, e)) = [psym s; pnum (nz_to_Z e)].
Proof.
  intros He. rewrite power_eq, pargs_singleton. unfold term_args, term_func.
  rewrite map_to_list_singleton. cbn [nz_to_Z].
  rewrite bool_decide_eq_true_2 by done.
  by rewrite bool_decide_eq_false_2 by done.
Qed.

Lemma args_and_bases_quotient p :
  @args_and_bases engine (Scenario.quotient p)
  = Ok [power ("k", NzPos 1); power ("A", NzNeg p); psym "A"].
Proof.
  unfold args_and_bases.
  change (@args engine (Scenario.quotient p)) with (pargs (Scenario.quotient p)).
  unfold Scenario.quotient. rewrite pargs_singleton. unfold term_args.
  cbn [nz_to_Z]. rewrite k_over_A_func, k_over_A_items.
  rewrite bool_decide_eq_true_2 by done. cbn [map app].
  rewrite !filter_cons, !filter_nil.
  change (@func_name engine) with pfunc. rewrite !pfunc_power. cbn [nz_to_Z].
  rewrite (bool_decide_eq_true_2 (1 = 1)) by done.
  rewrite (bool_decide_eq_false_2 (Z.neg p = 1)) by done.
  rewrite !(decide_False (P := Symbol = _)) by done.
  rewrite (decide_False (P := Pow = Mul)) by done.
  rewrite (decide_True (P := Pow = Pow)) by done.
  cbn [omapM obind]. unfold arg0.
  change (@args engine) with pargs. rewrite pargs_power by done.
  reflexivity.
Qed.

Lemma quotient_func p : @func_name engine (Scenario.quotient p) = Mul.
Proof.
  change (pfunc (Scenario.quotient p) = Mul). unfold Scenario.quotient. rewrite pfunc_singleton.
  apply k_over_A_func.
Qed.

Lemma psym_A_term : as_term (psym "A") = Some (1, {[ "A" := NzPos 1 ]}).
Proof.
  unfold psym, fs_single. cbn [nz_of_Z]. apply as_term_singleton.
Qed.

Lemma quotient_div_A p :
  @factor engine (@ediv engine (Scenario.quotient p) (@sym engine "A")) = Scenario.quotient (Pos.succ p).
Proof.
  change (pdiv (Scenario.quotient p) (psym "A") = Scenario.quotient (Pos.succ p)).
  unfold pdiv. rewrite psym_A_term.
  rewrite bool_decide_eq_true_2 by (by left). unfold Scenario.quotient.
  rewrite (scale_singleton 1 _ _ _ (NzPos 1)) by done.
  by rewrite k_over_A_succ.
Qed.

Lemma increment_Some l s (h : list Complex) c :
  h !! l = Some c →
  increment l s h
  = Ok (tt, <[l := <[s := match c !! s with Some n => n + 1 | None => 1 end]> c]> h).
Proof.
  intros Hl. unfold increment.
  rewrite (bind_Ok _ _ _ _ _ (deref_Some _ _ _ Hl)).
  destruct (c !! s); by apply set_item_Some.
Qed.

Lemma bind_OutOfFuel {A B} (m : M A) (f : A → M B) (h : list Complex) :
  m h = OutOfFuel → bind m f h = OutOfFuel.
Proof. intros Hm. unfold bind. by rewrite Hm. Qed.

Lemma fix_ma_loop_diverges (self : @Reaction engine) (fuel : nat) :
  ∀ (p : positive) (ml : list poly) (h : list Complex),
    psym "A" ∈ ml → allocated h self →
    fix_ma_loop fuel self ["A"] (Scenario.quotient p, ml) h = OutOfFuel.
Proof.
  induction fuel as [|fuel IH]; intros p ml h Hin [[R HR] [P HP]];
    cbn [fix_ma_loop existsb snd]; unfold in_mulargs;
    rewrite (bool_decide_eq_true_2 (@sym engine "A" ∈ ml)) by done;
    cbn [orb]; [done|].
  cbn [foldM]. unfold fix_ma_body at 1. unfold in_mulargs.
  rewrite (bool_decide_eq_true_2 (@sym engine "A" ∈ ml)) by done.
  set (h1 := <[reactant self := <["A" := match R !! "A" with
                 | Some n => n + 1 | None => 1 end]> R]> h).
  assert (∃ P', h1 !! product self = Some P') as [P' HP'].
  { apply lookup_lt_is_Some. unfold h1. rewrite length_insert.
    by eapply lookup_lt_Some. }
  set (h2 := <[product self := <["A" := match P' !! "A" with
                 | Some n => n + 1 | None => 1 end]> P']> h1).
  assert (Hal : allocated h2 self).
  { split; apply lookup_lt_is_Some; unfold h2, h1; rewrite !length_insert;
      by eapply lookup_lt_Some. }
  rewrite quotient_div_A, quotient_func. rewrite bool_decide_eq_true_2 by done.
  unfold bind at 1 2 3 4 5.
  rewrite (increment_Some _ _ _ _ HR). fold h1.
  rewrite (increment_Some _ _ _ _ HP'). fold h2.
  unfold lift. rewrite args_and_bases_quotient. unfold ret.
  apply IH; [|done]. rewrite !elem_of_cons. auto.
Qed.

Lemma k_numer_denom :
  @as_numer_denom engine Scenario.k = (Scenario.k, pnum 1).
Proof. run. Qed.

Lemma k_over_cA :
  @factor engine (@ediv engine Scenario.k (ma Scenario.cA)) = Scenario.quotient 1.
Proof. run. Qed.



Section fsupp_facts.
Context `{Countable K}.
Implicit Types f g : fsupp K.

Lemma oz_nz_of_Z (z : Z) : oz (nz_of_Z z) = z.
Proof. by destruct z. Qed.

Lemma oz_inj (x y : option nz) : oz x = oz y → x = y.
Proof. by destruct x as [[]|], y as [[]|]; intros [=]; subst. Qed.

Lemma fs_ext f g : (∀ k, val f k = val g k) → f = g.
Proof. intros Hfg. apply map_eq. intros k. apply oz_inj, Hfg. Qed.

Lemma val_fs_add f g k : val (fs_add f g) k = val f k + val g k.
Proof.
  unfold val, fs_add. rewrite lookup_merge.
  destruct (f !! k), (g !! k); cbn [diag_None]; by rewrite ?oz_nz_of_Z.
Qed.

Lemma val_fs_neg f k : val (fs_neg f) k = - val f k.
Proof.
  unfold val, fs_neg. rewrite lookup_omap.
  destruct (f !! k); cbn; by rewrite ?oz_nz_of_Z.
Qed.

Lemma val_empty k : val (∅ : fsupp K) k = 0.
Proof. unfold val. by rewrite lookup_empty. Qed.

Lemma val_insert f k a k' :
  val (<[k := a]> f) k' = if decide (k = k') then nz_to_Z a else val f k'.
Proof.
  unfold val. destruct (decide (k = k')) as [->|Hne].
  - by rewrite lookup_insert_eq.
  - by rewrite lookup_insert_ne.
Qed.

Lemma val_singleton k a k' :
  val ({[ k := a ]} : fsupp K) k' = if decide (k = k') then nz_to_Z a else 0.
Proof. rewrite <- insert_empty, val_insert. by rewrite val_empty. Qed.

Lemma fs_add_comm f g : fs_add f g = fs_add g f.
Proof. apply fs_ext. intros k. rewrite !val_fs_add. lia. Qed.

Lemma fs_add_assoc f g e : fs_add f (fs_add g e) = fs_add (fs_add f g) e.
Proof. apply fs_ext. intros k. rewrite !val_fs_add. lia. Qed.

Lemma fs_add_empty_l f : fs_add ∅ f = f.
Proof. apply fs_ext. intros k. rewrite val_fs_add, val_empty. lia. Qed.

Lemma fs_add_neg_l f : fs_add (fs_neg f) f = ∅.
Proof.
  apply fs_ext. intros k. rewrite val_fs_add, val_fs_neg, val_empty. lia.
Qed.

Lemma fs_sub_empty f g : fs_add f (fs_neg g) = ∅ ↔ f = g.
Proof.
  split.
  - intros Hfg. apply fs_ext. intros k.
    assert (Hk : val (fs_add f (fs_neg g)) k = 0)
      by (rewrite Hfg; apply val_empty).
    rewrite val_fs_add, val_fs_neg in Hk. lia.
  - intros ->. rewrite fs_add_comm. apply fs_add_neg_l.
Qed.

Lemma fs_add_cancel_l f g : fs_add (fs_neg f) (fs_add f g) = g.
Proof.
  apply fs_ext. intros k. rewrite !val_fs_add, val_fs_neg. lia.
Qed.

Lemma fs_add_cancel_r f g : fs_add f (fs_add (fs_neg f) g) = g.
Proof.
  apply fs_ext. intros k. rewrite !val_fs_add, val_fs_neg. lia.
Qed.

#[global] Instance fs_add_inj f : Inj (=) (=) (fs_add f).
Proof.
  intros g e Hge. rewrite <- (fs_add_cancel_l f g), Hge.
  apply fs_add_cancel_l.
Qed.

Lemma fs_add_insert f k a :
  f !! k = None → fs_add f {[ k := a ]} = <[k := a]> f.
Proof.
  intros Hk. apply fs_ext. intros k'.
  rewrite val_fs_add, val_singleton, val_insert.
  destruct (decide (k = k')) as [<-|]; [|lia].
  unfold val. rewrite Hk. cbn. lia.
Qed.

Lemma sum_of_terms (l : list (K * nz)) (acc : fsupp K) :
  NoDup l.*1 →
  foldl fs_add acc (map (λ mc, {[ mc.1 := mc.2 ]}) l)
  = fs_add acc (list_to_map l).
Proof.
  revert acc. induction l as [|[k a] l IH]; intros acc Hnd.
  - cbn. apply fs_ext. intros k. rewrite val_fs_add, val_empty. lia.
  - apply NoDup_cons in Hnd as [Hk Hnd]. cbn [map foldl fst snd].
    rewrite IH by done. cbn [list_to_map foldr].
    rewrite <- fs_add_assoc. f_equal.
    rewrite <- fs_add_insert by by apply not_elem_of_list_to_map_1.
    apply fs_add_comm.
Qed.

End fsupp_facts.

Lemma val_scale (c : Z) (u : mono) (p : poly) (m : mono) :
  val (scale c u p) m = c * val p (fs_add (fs_neg u) m).
Proof.
  unfold scale, val.
  rewrite <- (fs_add_cancel_r u m) at 1.
  rewrite (lookup_kmap (fs_add u)), lookup_omap.
  destruct (p !! fs_add (fs_neg u) m) as [a|]; cbn.
  - by rewrite oz_nz_of_Z.
  - lia.
Qed.

Lemma scale_add (c : Z) (u : mono) (p q : poly) :
  scale c u (fs_add p q) = fs_add (scale c u p) (scale c u q).
Proof.
  apply fs_ext. intros m. rewrite val_fs_add, !val_scale, val_fs_add. lia.
Qed.

Lemma scale_empty (c : Z) (u : mono) : scale c u ∅ = ∅.
Proof. apply fs_ext. intros m. rewrite val_scale, !val_empty. lia. Qed.

Lemma scale_inverse (u : mono) (p : poly) :
  scale 1 (fs_neg u) (scale 1 u p) = p.
Proof.
  apply fs_ext. intros m. rewrite !val_scale.
  replace (fs_add (fs_neg u) (fs_add (fs_neg (fs_neg u)) m)) with m;
    [lia|].
  apply fs_ext. intros s. rewrite !val_fs_add, !val_fs_neg. lia.
Qed.


Lemma same_rate_eq (x y : poly) : @same_rate engine x y ↔ x = y.
Proof. change (fs_add x (fs_neg y) = ∅ ↔ x = y). apply fs_sub_empty. Qed.

Lemma insert_cmp_Permutation {A} (cmp : A → A → comparison) (x : A)
    (l : list A) : insert_cmp cmp x l ≡ₚ x :: l.
Proof.
  induction l as [|y l IH]; cbn [insert_cmp]; [done|].
  destruct (cmp x y); [done|done|]. rewrite IH. apply Permutation_swap.
Qed.

Lemma sort_cmp_Permutation {A} (cmp : A → A → comparison) (l : list A) :
  sort_cmp cmp l ≡ₚ l.
Proof.
  unfold sort_cmp. induction l as [|x l IH]; cbn [foldr]; [done|].
  by rewrite insert_cmp_Permutation, IH.
Qed.

Lemma addends_Permutation (x : poly) : addends x ≡ₚ map_to_list x.
Proof. apply sort_cmp_Permutation. Qed.

Lemma addends_NoDup (x : poly) : NoDup (addends x).*1.
Proof.
  apply (NoDup_Permutation_proper ((map_to_list x).*1)).
  - apply fmap_Permutation. symmetry. apply addends_Permutation.
  - apply NoDup_fst_map_to_list.
Qed.

Lemma addends_to_map (x : poly) : list_to_map (addends x) = x.
Proof.
  rewrite <- (list_to_map_to_list x) at 2.
  apply list_to_map_proper; [apply addends_NoDup|apply addends_Permutation].
Qed.

Lemma pfunc_Add_terms (x : poly) :
  pfunc x = Add → pargs x = map (λ mc, {[ mc.1 := mc.2 ]}) (addends x).
Proof.
  unfold pfunc, pargs.
  destruct (map_to_list x) as [|[m c] [|mc l]]; [done| |done].
  unfold term_func. destruct (map_to_list m) as [|[s e] [|se l]]; [done| |done].
  by repeat case_bool_decide.
Qed.

Lemma same_rate_eq_1 (x y : poly) : @same_rate engine x y → x = y.
Proof. apply same_rate_eq. Qed.

#[global] Instance laurent_laws : SymLaws engine.
Proof.
  split.
  - split.
    + intros x. by apply same_rate_eq.
    + intros x y Hxy. apply same_rate_eq_1 in Hxy. by apply same_rate_eq.
    + intros x y z Hxy Hyz. apply same_rate_eq_1 in Hxy, Hyz.
      apply same_rate_eq. congruence.
  - intros x x' Hx y y' Hy. apply same_rate_eq_1 in Hx, Hy.
    apply same_rate_eq. congruence.
  - intros d x y Hxy. apply same_rate_eq_1 in Hxy. apply same_rate_eq.
    congruence.
  - intros x. by apply same_rate_eq.
  - intros x. by apply same_rate_eq.
  - intros x. apply same_rate_eq.
    change (x = pdiv (scale 1 (common_denom x) x)
                  (fs_single (common_denom x) 1)).
    unfold pdiv, fs_single. cbn [nz_of_Z]. rewrite as_term_singleton.
    cbn [nz_to_Z]. rewrite bool_decide_eq_true_2 by (by left).
    by rewrite scale_inverse.
  - intros x Hx. apply same_rate_eq.
    change (foldl fs_add ∅ (pargs x) = x).
    rewrite (pfunc_Add_terms x Hx).
    rewrite sum_of_terms by apply addends_NoDup.
    by rewrite fs_add_empty_l, addends_to_map.
  - intros x. apply same_rate_eq. apply (fs_add_empty_l x).
  - intros x y d. apply same_rate_eq.
    change (pdiv (fs_add x y) d = fs_add (pdiv x d) (pdiv y d)).
    unfold pdiv. destruct (as_term d) as [[c u]|].
    + case_bool_decide; [apply scale_add|by rewrite fs_add_empty_l].
    + by rewrite fs_add_empty_l.
  - intros d. apply same_rate_eq. change (pdiv ∅ d = ∅).
    unfold pdiv. destruct (as_term d) as [[c u]|]; [|done].
    case_bool_decide; [apply scale_empty|done].
Qed.

Lemma fix_ma_diverges :
  ∀ fuel, (r <- Scenario.A_to_B "r" Scenario.k ;;
           _fix_ma fuel r (Some ["A"])) Scenario.h0 = OutOfFuel.
Proof.
  intros fuel. unfold Scenario.A_to_B.
  rewrite (bind_Ok _ _ _ _ _
             (@Reaction_init_Some engine "r" 0%nat 1%nat Scenario.k
                Scenario.h0 Scenario.cA eq_refl)).
  unfold _fix_ma. cbn [rate need_rate reactant].
  rewrite (bind_Ok _ _ _ Scenario.k Scenario.h0) by done.
  rewrite k_numer_denom.
  rewrite (bind_Ok _ _ _ Scenario.cA Scenario.h0) by done.
  rewrite k_over_cA, quotient_func. rewrite bool_decide_eq_true_2 by done.
  unfold lift. rewrite args_and_bases_quotient.
  rewrite (bind_Ok _ _ _ [power ("k", NzPos 1); power ("A", NzNeg 1); psym "A"]
             Scenario.h0) by done.
  apply bind_OutOfFuel. apply fix_ma_loop_diverges.
  - rewrite !elem_of_cons. auto.
  - split; by eexists.
Qed.

(** C5 at [r: A -> B] with the rate [k] and the species [A]: [A] does not
    divide the numerator [k] (its degree in [A] is 0), yet the quotient [k/A]
    of the numerator by the mass-action monomial is a product with [A] among
    the bases of its powers; a turn of the loop of [_fix_ma] adds [A] to
    reactant and product and leaves the quotient [k/A^2], in the same shape;
    and the call does not return, whatever number of turns the loop is
    allowed. *)
Theorem C5_fix_ma_never_returns (fuel : nat) :
  poly_as_dict Scenario.k [Scenario.A] = Ok [([0], Scenario.k)] ∧
  (as_numer_denom Scenario.k).1 = Scenario.k ∧
  factor (Scenario.k / ma Scenario.cA)%E = Scenario.quotient 1 ∧
  args_and_bases (Scenario.quotient 1)
  = Ok [Scenario.k; (Scenario.A ^ (-1))%E; Scenario.A] ∧
  fix_ma_body Scenario.r_k
    (Scenario.quotient 1, [Scenario.k; (Scenario.A ^ (-1))%E; Scenario.A])
    "A" Scenario.h0
  = Ok ((Scenario.quotient 2,
         [Scenario.k; (Scenario.A ^ (-2))%E; Scenario.A]),
        [ {[ "A" := 2 ]}; {[ "B" := 1; "A" := 1 ]} ]) ∧
  (r <- Scenario.A_to_B "r" Scenario.k ;;
   _fix_ma fuel r (Some ["A"])) Scenario.h0 = OutOfFuel.
Proof.
  split; [run|]. split; [run|]. split; [run|]. split; [run|]. split; [run|].
  apply fix_ma_diverges.
Qed.

End LaurentFacts.

(** ** Splitting, then merging (claim C2) *)

Section split_merge.
Context `{E : SymEngine} {L : SymLaws E}.

Lemma split_reaction_spec (r : Reaction) (h : list Complex) x R :
  rate r = Some x → h !! reactant r = Some R →
  func_name (expand (as_numer_denom x).1) = Add →
  _split_reaction r h
  = Ok (split_reactions r R (as_numer_denom x).2
          (args (expand (as_numer_denom x).1)), h).
Proof.
  intros Hx HR Hadd. unfold _split_reaction. rewrite Hx. cbn [need_rate].
  rewrite (bind_Ok _ _ _ x h) by done.
  destruct (as_numer_denom x) as [n d]. cbn [fst snd] in *.
  rewrite bool_decide_eq_true_2 by done.
  unfold mapM_enum, split_reactions. apply mapM'_pure.
  intros [i a] _. cbn [fst snd]. by apply Reaction_init_Some.
Qed.

Lemma sum_div (d : expr) (l : list expr) (a a' : expr) :
  same_rate a' (a / d)%E →
  same_rate (foldl eadd a' (map (λ t, t / d)%E l)) (foldl eadd a l / d)%E.
Proof using L.
  revert a a'. induction l as [|t l IH]; intros a a' Ha; [done|].
  cbn [map foldl]. apply IH.
  transitivity (a / d + t / d)%E.
  - by apply eadd_proper.
  - symmetry. apply div_add_distr.
Qed.

Lemma split_rates_sum (x : expr) :
  func_name (expand (as_numer_denom x).1) = Add →
  same_rate
    (cancel (py_sum (map (λ t, t / (as_numer_denom x).2)%E
                       (args (expand (as_numer_denom x).1))))) x.
Proof using L.
  intros Hadd. etransitivity; [apply cancel_same|].
  etransitivity; [apply sum_div; symmetry; apply zero_div|].
  etransitivity; [apply ediv_proper, add_args_same, Hadd|].
  etransitivity; [apply ediv_proper, expand_same|].
  symmetry. apply numer_denom_same.
Qed.

Lemma first_occurrences_const `{EqDecision A} (l : list A) (k : A) :
  l ≠ [] → Forall (λ x, x = k) l → first_occurrences l = [k].
Proof.
  intros Hne Hall. rewrite Forall_forall in Hall.
  pose proof (NoDup_first_occurrences l) as Hnd.
  pose proof (elem_of_first_occurrences l) as Hel.
  destruct (first_occurrences l) as [|a [|b l']].
  - destruct l as [|x l]; [done|]. exfalso.
    eapply elem_of_nil. apply Hel. apply list_elem_of_here.
  - f_equal. apply Hall, Hel, list_elem_of_here.
  - exfalso. apply NoDup_cons in Hnd as [Hab _]. apply Hab.
    rewrite (Hall a) by (apply Hel, list_elem_of_here).
    rewrite (Hall b)
      by (apply Hel, list_elem_of_further, list_elem_of_here).
    apply list_elem_of_here.
Qed.

Lemma split_reactions_same (r : Reaction) (R : Complex) (d : expr)
    (l : list expr) :
  Forall (λ m, reactant m = reactant r ∧ product m = product r)
    (split_reactions r R d l).
Proof.
  unfold split_reactions. apply Forall_forall.
  by intros m (ix & -> & _)%list_elem_of_fmap.
Qed.

Lemma split_reactions_rates (r : Reaction) (R : Complex) (d : expr)
    (l : list expr) :
  omap rate (split_reactions r R d l) = map (λ t, t / d)%E l.
Proof.
  unfold split_reactions. generalize 0%nat as i.
  induction l as [|t l IH]; intros i; [done|].
  cbn [length seq zip zip_with map omap list_omap rate snd]. f_equal. apply IH.
Qed.

Lemma members_all (h : list Complex) (k : Complex * Complex)
    (rs : list Reaction) :
  Forall (λ m, complexes h m = k) rs → members h k rs = rs.
Proof.
  unfold members. induction 1 as [|m rs Hm _ IH]; [done|].
  rewrite filter_cons_True by done. by rewrite IH.
Qed.

(** C2, as amended: for a reaction whose expanded rate numerator is a sum of
    at least two terms, merging the reactions of [_split_reaction] gives, when
    reactant and product differ, one reaction, which [__eq__] finds equal to
    the reaction split, and, when reactant and product are equal, the empty
    list. *)
Theorem C2_split_then_merge (r : Reaction) (h : list Complex) (x : expr)
    (R P : Complex) :
  rate r = Some x → h !! reactant r = Some R → h !! product r = Some P →
  func_name (expand (as_numer_denom x).1) = Add →
  (2 ≤ length (args (expand (as_numer_denom x).1)))%nat →
  (R ≠ P →
   ∃ m, (l <- _split_reaction r ;; merge_reactions l) h = Ok ([m], h) ∧
        Reaction_eq m r h = Ok (true, h)) ∧
  (R = P →
   (l <- _split_reaction r ;; merge_reactions l) h = Ok ([], h)).
Proof using L.
  intros Hx HR HP Hadd Hlen.
  rewrite (bind_Ok _ _ _ _ _ (split_reaction_spec r h x R Hx HR Hadd)).
  set (d := (as_numer_denom x).2). set (l := args _) in *.
  pose proof (split_reactions_same r R d l) as Hsame.
  pose proof (split_reactions_rates r R d l) as Hrates.
  assert (Hnil : split_reactions r R d l ≠ []).
  { unfold split_reactions. destruct l; [cbn in Hlen; lia|done]. }
  set (rs := split_reactions r R d l) in *.
  assert (Hcx : Forall (λ m, complexes h m = (R, P)) rs).
  { eapply Forall_impl; [exact Hsame|]. intros m [Hm1 Hm2].
    unfold complexes. by rewrite Hm1, Hm2, HR, HP. }
  assert (Hal : Forall (allocated h) rs).
  { eapply Forall_impl; [exact Hsame|]. intros m [Hm1 Hm2].
    unfold allocated. by rewrite Hm1, Hm2, HR, HP. }
  assert (Hr : Forall (λ m, is_Some (rate m)) rs).
  { unfold rs, split_reactions. apply Forall_forall.
    by intros m (ix & -> & _)%list_elem_of_fmap. }
  rewrite (merge_reactions_spec rs h Hal Hr).
  unfold merge_spec.
  rewrite (first_occurrences_const _ (R, P));
    [|by destruct rs|by apply Forall_fmap].
  split.
  - intros Hne.
    rewrite filter_cons_True by done. rewrite filter_nil.
    cbn [omap list_omap]. rewrite (members_all h (R, P) rs Hcx).
    destruct rs as [|first rest] eqn:Hrs; [done|].
    apply Forall_inv in Hsame as [Hf1 Hf2].
    apply Forall_inv in Hcx as Hfc.
    cbn [merged]. eexists. split; [reflexivity|].
    unfold Reaction_eq. cbn [reactant product rate]. rewrite Hf1, Hf2.
    rewrite !(bind_Ok _ _ _ _ _ (deref_Some _ _ _ HR)).
    rewrite bool_decide_eq_true_2 by done.
    rewrite !(bind_Ok _ _ _ _ _ (deref_Some _ _ _ HP)).
    rewrite bool_decide_eq_true_2 by done.
    rewrite Hx. cbn [need_rate]. unfold bind, ret.
    rewrite bool_decide_eq_true_2; [done|].
    rewrite Hrates. apply (split_rates_sum x Hadd).
  - intros Heq.
    rewrite filter_cons_False by (cbn [fst snd]; by intros Hne).
    by rewrite filter_nil.
Qed.

End split_merge.

Lemma C2_split_then_merge_witness :
  let r := mkReaction "r3" 0%nat 1%nat (Some Scenario.rate3)
             (Some (Scenario.rate3 / Scenario.A)%E) in
  let run := (l <- _split_reaction r ;; merge_reactions l) Scenario.h0 in
  (rate r = Some Scenario.rate3 ∧
   Scenario.h0 !! reactant r = Some Scenario.cA ∧
   Scenario.h0 !! product r = Some Scenario.cB ∧
   func_name (expand (as_numer_denom Scenario.rate3).1) = Add ∧
   (2 ≤ length (args (expand (as_numer_denom Scenario.rate3).1)))%nat ∧
   Scenario.cA ≠ Scenario.cB) ∧
  (Scenario.cA ≠ Scenario.cB →
   ∃ m, run = Ok ([m], Scenario.h0) ∧
        Reaction_eq m r Scenario.h0 = Ok (true, Scenario.h0)) ∧
  (Scenario.cA = Scenario.cB → run = Ok ([], Scenario.h0)).
Proof.
  intros r run.
  assert (H1 : Scenario.cA ≠ Scenario.cB)
    by (apply (bool_decide_unpack _); vm_compute; exact I).
  assert (H2 : func_name (expand (as_numer_denom Scenario.rate3).1) = Add)
    by (apply (bool_decide_unpack _); vm_compute; exact I).
  assert (H3 : (2 ≤ length (args (expand (as_numer_denom Scenario.rate3).1)))%nat)
    by (apply (bool_decide_unpack _); vm_compute; exact I).
  split.
  { split; [reflexivity|]. split; [reflexivity|]. split; [reflexivity|].
    split; [exact H2|]. split; [exact H3|exact H1]. }
  exact (C2_split_then_merge r Scenario.h0 Scenario.rate3 Scenario.cA
           Scenario.cB eq_refl eq_refl eq_refl H2 H3).
Defined.

(** A reaction [A -> A] whose reactant and product are two objects with the
    same content, with the rate [k1*A + k2*A^2]: the numerator is a sum of
    two terms, the two reactions of the split form a group that
    [merge_reactions] drops, and the result is the empty list. *)
Lemma C2_split_merge_loop_counterexample :
  func_name (expand (as_numer_denom Scenario.rate3).1) = Add ∧
  length (args (expand (as_numer_denom Scenario.rate3).1)) = 2%nat ∧
  Scenario.split_merge_loop Scenario.h_loop = Ok ([], Scenario.h_loop) ∧
  ¬ ∃ m, Scenario.split_merge_loop Scenario.h_loop
         = Ok ([m], Scenario.h_loop).
Proof.
  assert (Hrun : Scenario.split_merge_loop Scenario.h_loop
                 = Ok ([], Scenario.h_loop)) by run.
  split; [run|]. split; [run|]. split; [exact Hrun|].
  intros [m Hm]. rewrite Hrun in Hm. discriminate Hm.
Qed.

(** ** More on the split functions *)

Section split_facts.
Context `{E : SymEngine}.

(** [_split_reaction] makes no copies of the complexes: it returns, leaves
    the store as it is, and every reaction it returns holds the reactant and
    product objects of the reaction it was given; there is one reaction for
    each addend of the expanded numerator, and when the numerator is not a
    sum the list holds the reaction given and nothing else. *)
Theorem split_reaction_shares (r : Reaction) (h : list Complex) (x : expr) :
  rate r = Some x → is_Some (h !! reactant r) →
  ∃ l, _split_reaction r h = Ok (l, h) ∧
       Forall (λ m, reactant m = reactant r ∧ product m = product r ∧
                    is_Some (rate m)) l ∧
       length l
       = (if bool_decide (func_name (expand (as_numer_denom x).1) = Add)
          then length (args (expand (as_numer_denom x).1))
          else 1%nat) ∧
       (func_name (expand (as_numer_denom x).1) ≠ Add → l = [r]).
Proof.
  intros Hx [R HR]. case_bool_decide as Hadd.
  - eexists. split; [by apply (split_reaction_spec r h x R)|]. split; [|split].
    + unfold split_reactions. apply Forall_forall.
      by intros m (ix & -> & _)%list_elem_of_fmap.
    + unfold split_reactions.
      rewrite length_map, length_zip_with, length_seq. lia.
    + by intros Hnot.
  - exists [r]. split; [|split; [|done]].
    + unfold _split_reaction. rewrite Hx. cbn [need_rate].
      rewrite (bind_Ok _ _ _ x h) by done.
      destruct (as_numer_denom x) as [n d]. cbn [fst] in Hadd.
      by rewrite bool_decide_eq_false_2.
    + constructor; [|done]. by rewrite Hx.
Qed.

(** The rates of the reactions of [_split_reaction] add up to the rate of
    the reaction split. *)
Theorem split_reaction_conserves_rate `{!SymLaws E} (r : Reaction)
    (h : list Complex) (x : expr) :
  rate r = Some x → is_Some (h !! reactant r) →
  ∃ l, _split_reaction r h = Ok (l, h) ∧
       same_rate (py_sum (omap rate l)) x.
Proof.
  intros Hx [R HR].
  destruct (decide (func_name (expand (as_numer_denom x).1) = Add)) as [Hadd|Hadd].
  - eexists. split; [by apply (split_reaction_spec r h x R)|].
    rewrite split_reactions_rates.
    etransitivity; [|apply (split_rates_sum x Hadd)].
    symmetry. apply cancel_same.
  - exists [r]. split.
    + unfold _split_reaction. rewrite Hx. cbn [need_rate].
      rewrite (bind_Ok _ _ _ x h) by done.
      destruct (as_numer_denom x) as [n d]. cbn [fst] in Hadd.
      by rewrite bool_decide_eq_false_2.
    + cbn [omap list_omap]. rewrite Hx. cbn. apply add_zero_l.
Qed.

(** [_split_reaction_monom] returns the reaction itself when the numerator
    has at most one monomial in the species. *)
Theorem split_monom_single (reaction : Reaction) (species : list string)
    (x : expr) (d : list (list Z * expr)) (h : list Complex) :
  rate reaction = Some x →
  poly_as_dict (expand (as_numer_denom (cancel x)).1) (map sym species) = Ok d →
  (length d ≤ 1)%nat →
  _split_reaction_monom reaction species h = Ok ([reaction], h).
Proof.
  intros Hx Hd Hlen. unfold _split_reaction_monom. rewrite Hx.
  rewrite (bind_Ok _ _ _ x h) by done.
  destruct (as_numer_denom (cancel x)) as [n dn] eqn:Hnd. cbn [fst] in Hd.
  unfold py_map, py_unpack.
  rewrite (bind_Ok _ _ _ d h) by (unfold lift; by rewrite Hd).
  rewrite bool_decide_eq_false_2 by lia. done.
Qed.

End split_facts.

Lemma split_reaction_shares_witness :
  rate Scenario.r1 = Some (Scenario.k * Scenario.A)%E ∧
  is_Some (Scenario.h0 !! reactant Scenario.r1) ∧
  ∃ l, _split_reaction Scenario.r1 Scenario.h0 = Ok (l, Scenario.h0) ∧
       Forall (λ m, reactant m = reactant Scenario.r1 ∧
                    product m = product Scenario.r1 ∧ is_Some (rate m)) l ∧
       length l
       = (if bool_decide
               (func_name (expand (as_numer_denom
                                     (Scenario.k * Scenario.A)%E).1) = Add)
          then length (args (expand (as_numer_denom
                                       (Scenario.k * Scenario.A)%E).1))
          else 1%nat) ∧
       (func_name (expand (as_numer_denom (Scenario.k * Scenario.A)%E).1)
        ≠ Add → l = [Scenario.r1]).
Proof.
  assert (H2 : is_Some (Scenario.h0 !! reactant Scenario.r1))
    by (eexists; reflexivity).
  split; [reflexivity|]. split; [exact H2|].
  exact (split_reaction_shares Scenario.r1 Scenario.h0 _ eq_refl H2).
Defined.

Lemma split_reaction_conserves_rate_witness :
  let r := mkReaction "r3" 0%nat 1%nat (Some Scenario.rate3) None in
  rate r = Some Scenario.rate3 ∧
  is_Some (Scenario.h0 !! reactant r) ∧
  ∃ l, _split_reaction r Scenario.h0 = Ok (l, Scenario.h0) ∧
       same_rate (py_sum (omap rate l)) Scenario.rate3.
Proof.
  intros r.
  assert (H2 : is_Some (Scenario.h0 !! reactant r)) by (eexists; reflexivity).
  split; [reflexivity|]. split; [exact H2|].
  exact (split_reaction_conserves_rate r Scenario.h0 Scenario.rate3 eq_refl H2).
Defined.

Lemma split_monom_single_witness :
  let d := [([1], Scenario.k)] in
  rate Scenario.r1 = Some (Scenario.k * Scenario.A)%E ∧
  poly_as_dict
    (expand (as_numer_denom (cancel (Scenario.k * Scenario.A)%E)).1)
    (map sym ["A"]) = Ok d ∧
  (length d ≤ 1)%nat ∧
  _split_reaction_monom Scenario.r1 ["A"] Scenario.h0
  = Ok ([Scenario.r1], Scenario.h0).
Proof.
  intros d.
  assert (H2 : poly_as_dict
    (expand (as_numer_denom (cancel (Scenario.k * Scenario.A)%E)).1)
    (map sym ["A"]) = Ok d) by run.
  split; [reflexivity|]. split; [exact H2|]. split; [cbn; lia|].
  exact (split_monom_single Scenario.r1 ["A"] _ d Scenario.h0 eq_refl H2
           (le_n 1)).
Defined.

Lemma split_monom_many_raises_witness :
  let r := mkReaction "r3" 0%nat 1%nat (Some Scenario.rate3) None in
  let d := [([2], Scenario.k2); ([1], Scenario.k1)] in
  rate r = Some Scenario.rate3 ∧
  poly_as_dict (expand (as_numer_denom (cancel Scenario.rate3)).1)
    (map sym ["A"]) = Ok d ∧
  (1 < length d)%nat ∧
  _split_reaction_monom r ["A"] Scenario.h0 = Raise TypeError.
Proof.
  intros r d.
  assert (H2 : poly_as_dict (expand (as_numer_denom (cancel Scenario.rate3)).1)
    (map sym ["A"]) = Ok d) by run.
  split; [reflexivity|]. split; [exact H2|]. split; [cbn; lia|].
  exact (split_monom_many_raises r ["A"] Scenario.rate3 d Scenario.h0
           eq_refl H2 (le_n 2)).
Defined.

(** ** [__eq__] *)

Section eq_facts.
Context `{E : SymEngine}.

Lemma Reaction_eq_run (a b : Reaction) (h : list Complex) Ra Pa Rb Pb x y :
  h !! reactant a = Some Ra → h !! product a = Some Pa →
  h !! reactant b = Some Rb → h !! product b = Some Pb →
  rate a = Some x → rate b = Some y →
  Reaction_eq a b h
  = Ok (bool_decide (Ra = Rb) && bool_decide (Pa = Pb)
        && bool_decide (cancel (x - y)%E = num 0), h).
Proof.
  intros HRa HPa HRb HPb Hx Hy. unfold Reaction_eq.
  rewrite (bind_Ok _ _ _ _ _ (deref_Some _ _ _ HRa)).
  rewrite (bind_Ok _ _ _ _ _ (deref_Some _ _ _ HRb)).
  destruct (bool_decide (Ra = Rb)); [|done].
  rewrite (bind_Ok _ _ _ _ _ (deref_Some _ _ _ HPa)).
  rewrite (bind_Ok _ _ _ _ _ (deref_Some _ _ _ HPb)).
  destruct (bool_decide (Pa = Pb)); [|done].
  by rewrite Hx, Hy.
Qed.


(** [__eq__] looks at the rates last: on reactions whose reactants or
    products differ it answers [False] even when a rate is missing, and on
    reactions with equal complexes a missing rate makes it raise
    [TypeError]. *)
Theorem Reaction_eq_missing_rate (h : list Complex) (a b : Reaction)
    Ra Pa Rb Pb :
  h !! reactant a = Some Ra → h !! product a = Some Pa →
  h !! reactant b = Some Rb → h !! product b = Some Pb →
  rate a = None ∨ rate b = None →
  Reaction_eq a b h
  = if decide (Ra = Rb ∧ Pa = Pb) then Raise TypeError else Ok (false, h).
Proof.
  intros HRa HPa HRb HPb Hnone. unfold Reaction_eq.
  rewrite (bind_Ok _ _ _ _ _ (deref_Some _ _ _ HRa)).
  rewrite (bind_Ok _ _ _ _ _ (deref_Some _ _ _ HRb)).
  case_bool_decide as H1; [|by rewrite decide_False by (by intros [? ?])].
  rewrite (bind_Ok _ _ _ _ _ (deref_Some _ _ _ HPa)).
  rewrite (bind_Ok _ _ _ _ _ (deref_Some _ _ _ HPb)).
  case_bool_decide as H2; [|by rewrite decide_False by (by intros [? ?])].
  rewrite decide_True by done.
  destruct (rate a) as [x|]; [|done].
  destruct Hnone as [?|Hb]; [done|]. by rewrite Hb.
Qed.

End eq_facts.

(** ** More on [merge_reactions] *)

Section merge_facts.
Context `{E : SymEngine}.

Lemma merged_complexes (h : list Complex) (rs : list Reaction)
    (k : Complex * Complex) :
  k ∈ map (complexes h) rs →
  ∃ m, merged h (members h k rs) = Some m ∧ complexes h m = k ∧
       is_Some (rate m).
Proof.
  intros (r & -> & Hr)%list_elem_of_fmap.
  assert (Hin : r ∈ members h (complexes h r) rs)
    by by apply list_elem_of_filter.
  destruct (members h (complexes h r) rs) as [|first rest] eqn:Hm.
  { by apply elem_of_nil in Hin. }
  assert (Hfirst : first ∈ members h (complexes h r) rs)
    by (rewrite Hm; apply list_elem_of_here).
  apply list_elem_of_filter in Hfirst as [Hfirst _].
  eexists. split; [reflexivity|]. split; [exact Hfirst|]. by eexists.
Qed.

Lemma merge_spec_complexes (h : list Complex) (rs : list Reaction) :
  map (complexes h) (merge_spec h rs)
  = filter (λ k : Complex * Complex, k.1 ≠ k.2)
      (first_occurrences (map (complexes h) rs)) ∧
  Forall (λ m, is_Some (rate m)) (merge_spec h rs).
Proof.
  unfold merge_spec.
  assert (Hgen : ∀ ks, Forall (λ k, k ∈ map (complexes h) rs) ks →
    map (complexes h) (omap (λ k, merged h (members h k rs)) ks) = ks ∧
    Forall (λ m, is_Some (rate m))
      (omap (λ k, merged h (members h k rs)) ks)).
  { induction 1 as [|k ks Hk _ [IH1 IH2]]; [done|].
    destruct (merged_complexes h rs k Hk) as (m & Hm & Hc & Hr).
    cbn [omap list_omap]. rewrite Hm. cbn [map].
    split; [by rewrite Hc, IH1|by constructor]. }
  apply Hgen, Forall_forall. intros k [_ Hk]%list_elem_of_filter.
  cbv beta. by apply elem_of_first_occurrences.
Qed.

Lemma length_first_occurrences `{EqDecision A} (l : list A) :
  (length (first_occurrences l) ≤ length l)%nat.
Proof.
  unfold first_occurrences. rewrite length_reverse, <- (length_reverse l).
  induction (reverse l) as [|x l' IH]; [done|]. cbn [remove_dups].
  destruct (decide_rel elem_of x l'); cbn [length]; lia.
Qed.

(** The list [merge_reactions] returns holds no reaction whose reactant and
    product have the same content, no two reactions with the same pair of
    complexes, and only reactions with a rate; the call changes no complex. *)
Theorem merge_reactions_no_loops (rs : list Reaction) (h : list Complex) :
  Forall (allocated h) rs → Forall (λ r, is_Some (rate r)) rs →
  ∃ out, merge_reactions rs h = Ok (out, h) ∧
         Forall (λ m, (complexes h m).1 ≠ (complexes h m).2) out ∧
         NoDup (map (complexes h) out) ∧
         Forall (λ m, is_Some (rate m)) out ∧
         (length out ≤ length rs)%nat.
Proof.
  intros Hal Hr. eexists. split; [by apply merge_reactions_spec|].
  pose proof (sorted_by_Permutation reactionid (merge_spec h rs)) as Hperm.
  symmetry in Hperm.
  destruct (merge_spec_complexes h rs) as [Hmap Hrates].
  split; [|split; [|split]].
  - apply (Permutation_Forall Hperm). apply Forall_forall. intros m Hm.
    assert (Hk : complexes h m ∈ map (complexes h) (merge_spec h rs))
      by (apply list_elem_of_fmap; by exists m).
    rewrite Hmap in Hk. by apply list_elem_of_filter in Hk as [Hk _].
  - apply (NoDup_Permutation_proper _ _
             (Permutation_map (complexes h) Hperm)).
    rewrite Hmap. apply NoDup_filter, NoDup_first_occurrences.
  - by apply (Permutation_Forall Hperm).
  - rewrite <- (Permutation_length Hperm).
    rewrite <- (length_map (complexes h) (merge_spec h rs)), Hmap.
    etransitivity; [apply length_filter|].
    etransitivity; [apply length_first_occurrences|].
    by rewrite length_map.
Qed.

(** One reaction without a rate in a group that is not a loop makes
    [merge_reactions] raise [TypeError]: the rates are added with [sum]. *)
Theorem merge_reactions_missing_rate (r : Reaction) (h : list Complex) R P :
  h !! reactant r = Some R → h !! product r = Some P → R ≠ P →
  rate r = None →
  merge_reactions [r] h = Raise TypeError.
Proof.
  intros HR HP Hne Hnone.
  assert (Hc : complexes h r = (R, P)) by (unfold complexes; by rewrite HR, HP).
  assert (Hal : Forall (allocated h) [r]).
  { constructor; [|done]. unfold allocated. by rewrite HR, HP. }
  unfold merge_reactions.
  rewrite (bind_Ok _ _ _ _ _ (group_reactions_groups h [r] Hal)).
  unfold groups. cbn [map]. rewrite Hc.
  replace (first_occurrences [(R, P)]) with [(R, P)] by done.
  cbn [map mapM' snd]. unfold members. rewrite filter_cons_True by done.
  rewrite filter_nil. unfold merge_group.
  apply bind_Raise, bind_Raise.
  rewrite (bind_Ok _ _ _ _ _ (deref_Some _ _ _ HR)).
  rewrite (bind_Ok _ _ _ _ _ (deref_Some _ _ _ HP)).
  rewrite bool_decide_eq_true_2 by done. cbn [mapM']. by rewrite Hnone.
Qed.

End merge_facts.

(** ** Edges of [_same_denom], [_fix_ma] and of reactions without a rate *)

Section denom_facts.
Context `{E : SymEngine}.

Lemma rates_listed (e : exn) (rs : list Reaction) (xs : list expr)
    (h : list Complex) :
  map rate rs = map Some xs →
  mapM' (λ r, need_rate (rate r) e) rs h = Ok (xs, h).
Proof.
  revert xs. induction rs as [|r rs IH]; intros [|x xs] [=]; [done|].
  cbn [mapM']. rewrite H0. cbn [need_rate].
  rewrite (bind_Ok _ _ _ x h) by done.
  by rewrite (bind_Ok _ _ _ _ _ (IH xs H1)).
Qed.

(** [_same_denom] returns the reactions it was given, in order and
    untouched, when every rate denominator already agrees with the common
    one. *)
Theorem same_denom_unchanged (rs : list Reaction) (xs : list expr)
    (cd : expr) (h : list Complex) :
  map rate rs = map Some xs →
  reduce lcm (map (λ x, (as_numer_denom x).2) xs) = Ok cd →
  Forall (λ x, cancel ((as_numer_denom x).2 - cd)%E = num 0) xs →
  _same_denom rs h = Ok (rs, h).
Proof.
  intros Hxs Hcd Hall. unfold _same_denom.
  rewrite (bind_Ok _ _ _ _ _ (rates_listed _ _ _ _ Hxs)).
  assert (Hne : xs ≠ []) by (by intros ->).
  unfold unzip2, lift at 1.
  destruct (map as_numer_denom xs) as [|nd0 nds] eqn:Hnds.
  { by destruct xs. }
  rewrite <- Hnds. unfold bind at 1.
  rewrite map_map. rewrite Hcd. unfold lift, bind at 1.
  assert (Hlen : length rs = length xs).
  { by rewrite <- (length_map rate), Hxs, length_map. }
  rewrite (bind_Ok _ _ _
    (map (λ x : Reaction * (expr * expr), [x.1])
       (zip rs (zip (map fst (map as_numer_denom xs))
                    (map (λ x, (as_numer_denom x).2) xs)))) h).
  - unfold ret. f_equal. f_equal. clear -Hlen.
    revert xs Hlen. induction rs as [|r rs IH]; intros [|x xs] [=]; [done|].
    cbn. f_equal. by apply IH.
  - apply mapM'_pure. intros [r [n d]] Hin. cbn [fst].
    apply elem_of_zip_r, elem_of_zip_r in Hin.
    apply list_elem_of_fmap in Hin as (x & -> & Hx).
    rewrite Forall_forall in Hall.
    rewrite bool_decide_eq_false_2; [done|].
    intros Hd. apply Hd. by apply Hall.
Qed.

(** [_fix_ma] changes nothing when the quotient of the numerator by the
    mass-action monomial of the reactant is not a product. *)
Theorem fix_ma_not_product (fuel : nat) (self : Reaction)
    (species : option (list string)) (h : list Complex) x R :
  rate self = Some x → h !! reactant self = Some R →
  func_name (factor ((as_numer_denom x).1 / ma R)%E) ≠ Mul →
  _fix_ma fuel self species h = Ok (self, h).
Proof.
  intros Hx HR Hf. unfold _fix_ma. rewrite Hx. cbn [need_rate].
  rewrite (bind_Ok _ _ _ x h) by done.
  destruct (as_numer_denom x) as [n d]. cbn [fst] in Hf.
  rewrite (bind_Ok _ _ _ _ _ (deref_Some _ _ _ HR)).
  by rewrite bool_decide_eq_false_2.
Qed.

(** [_fix_ma] called without a species list, as its signature allows, raises
    [TypeError] once the quotient is a product: the default [None] cannot be
    iterated. *)
Theorem fix_ma_default_species (fuel : nat) (self : Reaction)
    (h : list Complex) x R ml :
  rate self = Some x → h !! reactant self = Some R →
  func_name (factor ((as_numer_denom x).1 / ma R)%E) = Mul →
  args_and_bases (factor ((as_numer_denom x).1 / ma R)%E) = Ok ml →
  _fix_ma fuel self None h = Raise TypeError.
Proof.
  intros Hx HR Hf Hml. unfold _fix_ma. rewrite Hx. cbn [need_rate].
  rewrite (bind_Ok _ _ _ x h) by done.
  destruct (as_numer_denom x) as [n d]. cbn [fst] in Hf, Hml.
  rewrite (bind_Ok _ _ _ _ _ (deref_Some _ _ _ HR)).
  rewrite bool_decide_eq_true_2 by done.
  unfold lift. rewrite Hml. done.
Qed.

Lemma set_item_keeps l s n (h : list Complex) :
  (l < length h)%nat →
  ∃ h', set_item l s n h = Ok (tt, h') ∧ length h' = length h.
Proof.
  intros [c Hc]%lookup_lt_is_Some. rewrite (set_item_Some _ _ _ _ _ Hc).
  eexists. split; [done|]. by rewrite length_insert.
Qed.

Lemma del_item_keeps l s (h : list Complex) :
  (l < length h)%nat →
  ∃ h', del_item l s h = Ok (tt, h') ∧ length h' = length h.
Proof.
  intros [c Hc]%lookup_lt_is_Some. rewrite (del_item_Some _ _ _ _ Hc).
  eexists. split; [done|]. by rewrite length_insert.
Qed.

Lemma seq_keeps (m1 m2 : M unit) (h : list Complex) :
  (∃ h', m1 h = Ok (tt, h') ∧ length h' = length h) →
  (∀ h1, length h1 = length h →
         ∃ h', m2 h1 = Ok (tt, h') ∧ length h' = length h1) →
  ∃ h', (m1 ;;; m2) h = Ok (tt, h') ∧ length h' = length h.
Proof.
  intros (h1 & H1 & Hl1) H2. destruct (H2 h1 Hl1) as (h2 & H2' & Hl2).
  exists h2. rewrite (bind_Ok _ _ _ _ _ H1). split; [done|congruence].
Qed.

Lemma when_keeps (b : bool) (m : M unit) (h : list Complex) :
  (∃ h', m h = Ok (tt, h') ∧ length h' = length h) →
  ∃ h', when b m h = Ok (tt, h') ∧ length h' = length h.
Proof. intros Hm. destruct b; [done|]. by exists h. Qed.

(** A reaction built without a rate has no kinetic parameter: the
    constructor returns it, [format_kinetics] gives [None], and [_fix_ma],
    [_fix_denom] and [remove_react_prod] raise, whatever their arguments. *)
Theorem rateless_reaction (rid : string) (r p : nat) (h : list Complex)
    (fuel : nat) (species : option (list string)) (among : list string)
    (one : option string) (showrate : bool) (precision : nat) R P :
  h !! r = Some R → h !! p = Some P →
  let run (f : Reaction → M Reaction) :=
    (self <- Reaction_init rid r p None ;; f self) h in
  Reaction_init rid r p None h = Ok (mkReaction rid r p None None, h) ∧
  (self <- Reaction_init rid r p None ;;
   format_kinetics self showrate precision) h = Ok (None, h) ∧
  run (λ self, _fix_ma fuel self species) = Raise AttributeError ∧
  run (λ self, _fix_denom fuel self among) = Raise AttributeError ∧
  run (λ self, remove_react_prod self one) = Raise TypeError.
Proof.
  intros HR HP run. unfold run.
  assert (Hinit : Reaction_init rid r p None h
                  = Ok (mkReaction rid r p None None, h)) by done.
  rewrite !(bind_Ok _ _ _ _ _ Hinit).
  split; [done|]. split; [done|]. split; [done|]. split; [done|].
  unfold remove_react_prod. cbn [reactant product].
  rewrite (bind_Ok _ _ _ _ _ (deref_Some _ _ _ HR)).
  rewrite (bind_Ok _ _ _ _ _ (deref_Some _ _ _ HP)).
  destruct one as [s|]; [|done].
  destruct (R !! s) as [nr|] eqn:Hnr; [destruct (P !! s) as [np|] eqn:Hnp|];
    [|done|done].
  assert (Hr : (r < length h)%nat) by by eapply lookup_lt_Some.
  assert (Hp : (p < length h)%nat) by by eapply lookup_lt_Some.
  set (self := mkReaction rid r p None None).
  assert (Hsteps : ∃ h',
    (when (bool_decide (np < nr))
       (set_item r s (nr - np) ;;; del_item p s) ;;;
     when (bool_decide (nr < np))
       (set_item p s (np - nr) ;;; del_item r s) ;;;
     when (bool_decide (nr = np))
       (del_item r s ;;; del_item p s)) h = Ok (tt, h') ∧
    length h' = length h).
  { apply seq_keeps; [|intros h1 Hl1; apply seq_keeps; [|intros h2 Hl2]].
    - apply when_keeps, seq_keeps; [by apply set_item_keeps|].
      intros h1 Hl1. apply del_item_keeps. lia.
    - apply when_keeps, seq_keeps; [apply set_item_keeps; lia|].
      intros h2 Hl2. apply del_item_keeps. lia.
    - apply when_keeps, seq_keeps; [apply del_item_keeps; lia|].
      intros h3 Hl3. apply del_item_keeps. lia. }
  destruct Hsteps as (h' & Hsteps & _).
  unfold bind in Hsteps |- *.
  destruct (when (bool_decide (np < nr)) _ h) as [[[] h1]|e|]; [|done|done].
  destruct (when (bool_decide (nr < np)) _ h1) as [[[] h2]|e|]; [|done|done].
  destruct (when (bool_decide (nr = np)) _ h2) as [[[] h3]|e|]; [|done|done].
  done.
Qed.

End denom_facts.

(** ** I1 on the reaction a method is called on *)

Lemma bind_Ok_inv {A B} (m : M A) (f : A → M B) (h h' : list Complex) b :
  bind m f h = Ok (b, h') → ∃ a h1, m h = Ok (a, h1) ∧ f a h1 = Ok (b, h').
Proof.
  unfold bind. destruct (m h) as [[a h1]|e|]; [|done|done]. by exists a, h1.
Qed.

Lemma deref_Ok_inv l (h h' : list Complex) c :
  deref l h = Ok (c, h') → h !! l = Some c ∧ h' = h.
Proof. unfold deref. destruct (h !! l); by intros [= -> ->]. Qed.

Section invariant.
Context `{E : SymEngine}.
(** Multiplying a quotient by the mass-action monomial it was divided by
    gives the dividend back. *)
Hypothesis mul_div : ∀ x c, same_rate (x / ma c * ma c)%E x.

Lemma set_rate_I1 (self self' : Reaction) (v : option expr)
    (h h' : list Complex) :
  set_rate self v h = Ok (self', h') → I1 h' self'.
Proof using mul_div.
  destruct v as [v|]; cbn [set_rate].
  - intros (c & h1 & [Hc ->]%deref_Ok_inv & [= <- <-])%bind_Ok_inv.
    unfold I1. cbn [rate kinetic_param reactant].
    exists (v / ma c)%E, c. split; [done|]. split; [done|]. apply mul_div.
  - by intros [= <- <-].
Qed.

Lemma update_kinetic_param_I1 (self self' : Reaction) (h h' : list Complex) :
  update_kinetic_param self h = Ok (self', h') → I1 h' self'.
Proof using mul_div.
  unfold update_kinetic_param. destruct (rate self) as [v|] eqn:Hv; [|done].
  cbn [need_rate].
  intros (v' & h0 & [= <- <-] &
          (c & h1 & [Hc ->]%deref_Ok_inv & [= <- <-])%bind_Ok_inv)%bind_Ok_inv.
  unfold I1. cbn [rate kinetic_param reactant with_kinetic_param]. rewrite Hv.
  exists (v / ma c)%E, c. split; [done|]. split; [done|]. apply mul_div.
Qed.

(** The constructor establishes I1: the reaction it returns has the kinetic
    parameter [rate / reactant.ma()]. *)
Theorem I1_after_init (rid : string) (r p : nat) (v : option expr)
    (self : Reaction) (h h' : list Complex) :
  Reaction_init rid r p v h = Ok (self, h') → I1 h' self ∧ h' = h.
Proof using mul_div.
  intros Hinit. split; [by eapply set_rate_I1|].
  unfold Reaction_init in Hinit. destruct v as [v|]; cbn [set_rate] in Hinit.
  - by apply bind_Ok_inv in Hinit
      as (c & h1 & [Hc ->]%deref_Ok_inv & [= _ <-]).
  - by injection Hinit.
Qed.

(** [remove_react_prod], with or without a species, leaves the reaction it
    is called on with I1. *)
Theorem I1_after_remove_react_prod (self self' : Reaction)
    (species : option string) (h h' : list Complex) :
  remove_react_prod self species h = Ok (self', h') → I1 h' self'.
Proof using mul_div.
  unfold remove_react_prod.
  intros (R & h1 & _ & (P & h2 & _ & (s1 & h3 & _ & Hupd)%bind_Ok_inv
    )%bind_Ok_inv)%bind_Ok_inv.
  by eapply update_kinetic_param_I1.
Qed.

(** [_fix_denom] leaves the reaction it is called on with I1. *)
Theorem I1_after_fix_denom (fuel : nat) (self self' : Reaction)
    (species : list string) (h h' : list Complex) :
  _fix_denom fuel self species h = Ok (self', h') → I1 h' self'.
Proof using mul_div.
  unfold _fix_denom.
  intros (k & h1 & _ & Hrest)%bind_Ok_inv.
  destruct (as_numer_denom k) as [numer denom].
  apply bind_Ok_inv in Hrest as (u & h2 & _ & Hrest).
  apply bind_Ok_inv in Hrest as (r & h3 & _ & Hrest).
  apply bind_Ok_inv in Hrest as (c & h4 & _ & Hrest).
  unfold set_kinetic_param in Hrest.
  apply bind_Ok_inv in Hrest as (c' & h5 & _ & Hrest).
  by eapply set_rate_I1.
Qed.

(** [_fix_ma] keeps I1 on the reaction it is called on. *)
Theorem I1_after_fix_ma (fuel : nat) (self self' : Reaction)
    (species : option (list string)) (h h' : list Complex) :
  I1 h self →
  _fix_ma fuel self species h = Ok (self', h') → I1 h' self'.
Proof using mul_div.
  intros HI. unfold _fix_ma.
  intros (r & h1 & Hr & Hrest)%bind_Ok_inv.
  assert (h1 = h) as ->.
  { destruct (rate self); [by injection Hr|done]. }
  destruct (as_numer_denom r) as [numer denom].
  apply bind_Ok_inv in Hrest as (c & h2 & [_ ->]%deref_Ok_inv & Hrest).
  case_bool_decide.
  - apply bind_Ok_inv in Hrest as (ml & h3 & _ & Hrest).
    destruct species as [species|]; [|done].
    apply bind_Ok_inv in Hrest as (st & h4 & _ & Hrest).
    by eapply update_kinetic_param_I1.
  - by injection Hrest as <- <-.
Qed.

End invariant.

(** ** Mass-action monomials in the Laurent engine *)

Module LaurentUnits.
Import Laurent LaurentFacts.

Lemma unit_pnum : unit_term (pnum 1).
Proof. by exists ∅. Qed.

Lemma unit_psym s : unit_term (psym s).
Proof. by exists {[ s := NzPos 1 ]}. Qed.

Lemma unit_pmul p q : unit_term p → unit_term q → unit_term (pmul p q).
Proof.
  intros [u ->] [v ->]. unfold pmul. rewrite as_term_singleton.
  exists (fs_add v u). by apply scale_singleton.
Qed.

Lemma unit_pdiv p q : unit_term p → unit_term q → unit_term (pdiv p q).
Proof.
  intros [u ->] [v ->]. unfold pdiv. rewrite as_term_singleton.
  cbn [nz_to_Z]. rewrite bool_decide_eq_true_2 by (by left).
  exists (fs_add (fs_neg v) u). by apply scale_singleton.
Qed.

Lemma unit_ppow p z : unit_term p → unit_term (ppow p z).
Proof.
  intros Hp. unfold ppow. case_bool_decide.
  - induction (Z.to_nat z) as [|n IH]; [apply unit_pnum|].
    cbn [Nat.iter]. by apply unit_pmul.
  - induction (Z.to_nat (- z)) as [|n IH]; [apply unit_pnum|].
    cbn [Nat.iter]. by apply unit_pdiv.
Qed.

Lemma unit_ma (c : Complex) : unit_term (@ma engine c).
Proof.
  unfold ma. induction (map_to_list c) as [|[s n] l IH]; [apply unit_pnum|].
  cbn [foldr]. apply unit_pmul; [|done]. apply unit_ppow, unit_psym.
Qed.

Lemma scale_inverse' (u : mono) (p : poly) :
  scale 1 u (scale 1 (fs_neg u) p) = p.
Proof.
  apply fs_ext. intros m. rewrite !val_scale.
  replace (fs_add (fs_neg (fs_neg u)) (fs_add (fs_neg u) m)) with m; [lia|].
  apply fs_ext. intros s. rewrite !val_fs_add, !val_fs_neg. lia.
Qed.

(** Dividing by a mass-action monomial and multiplying by it again gives the
    expression back. *)
Lemma laurent_mul_div (x : poly) (c : Complex) :
  @same_rate engine (@emul engine (@ediv engine x (ma c)) (ma c)) x.
Proof.
  apply same_rate_eq. destruct (unit_ma c) as [u Hu].
  change (pmul (pdiv x (@ma engine c)) (@ma engine c) = x).
  rewrite Hu. unfold pmul, pdiv. rewrite as_term_singleton.
  cbn [nz_to_Z]. rewrite bool_decide_eq_true_2 by (by left).
  apply scale_inverse'.
Qed.

End LaurentUnits.

(** ** Complexes *)

Section complex_facts.
Implicit Types a b c : Complex.

Lemma coefficient_merge (f : Z → Z → Z) a b s :
  coefficient (merge (λ x y, match x, y with
                             | None, None => None
                             | _, _ => keep_positive (f (default 0 x) (default 0 y))
                             end) a b) s
  = if decide (a !! s = None ∧ b !! s = None) then 0
    else Z.max 0 (f (coefficient a s) (coefficient b s)).
Proof.
  unfold coefficient. rewrite lookup_merge.
  destruct (a !! s) as [x|], (b !! s) as [y|]; cbn [diag_None default];
    try (rewrite decide_False by (by intros [? ?]));
    try (rewrite decide_True by done); try done;
    unfold keep_positive; case_decide; cbn [from_option]; unfold id in *; lia.
Qed.

Lemma coefficient_c_add a b s :
  coefficient (c_add a b) s = Z.max 0 (coefficient a s + coefficient b s).
Proof.
  unfold c_add. rewrite (coefficient_merge Z.add). case_decide as Hn; [|done].
  destruct Hn as [Ha Hb]. unfold coefficient. by rewrite Ha, Hb.
Qed.

Lemma coefficient_c_sub a b s :
  coefficient (c_sub a b) s = Z.max 0 (coefficient a s - coefficient b s).
Proof.
  unfold c_sub. rewrite (coefficient_merge Z.sub). case_decide as Hn; [|done].
  destruct Hn as [Ha Hb]. unfold coefficient. by rewrite Ha, Hb.
Qed.

Lemma coefficient_c_and a b s :
  coefficient (c_and a b) s
  = Z.max 0 (Z.min (coefficient a s) (coefficient b s)).
Proof.
  unfold c_and. rewrite (coefficient_merge Z.min). case_decide as Hn; [|done].
  destruct Hn as [Ha Hb]. unfold coefficient. by rewrite Ha, Hb.
Qed.

Lemma positive_merge (f : Z → Z → Z) a b :
  positive_coeffs (merge (λ x y, match x, y with
                             | None, None => None
                             | _, _ => keep_positive (f (default 0 x) (default 0 y))
                             end) a b).
Proof.
  intros s n. rewrite lookup_merge.
  destruct (a !! s), (b !! s); cbn [diag_None]; try done;
    unfold keep_positive; case_decide; by intros [= <-].
Qed.

Lemma positive_c_add a b : positive_coeffs (c_add a b).
Proof. apply (positive_merge Z.add). Qed.
Lemma positive_c_sub a b : positive_coeffs (c_sub a b).
Proof. apply (positive_merge Z.sub). Qed.
Lemma positive_c_and a b : positive_coeffs (c_and a b).
Proof. apply (positive_merge Z.min). Qed.

Lemma coefficient_nonneg a s : positive_coeffs a → 0 ≤ coefficient a s.
Proof.
  intros Ha. unfold coefficient. destruct (a !! s) as [n|] eqn:Hn; [|done].
  cbn. pose proof (Ha s n Hn). cbv beta in *. lia.
Qed.

(** Complexes with positive coefficients are equal when their coefficients
    are. *)
Lemma complex_ext a b :
  positive_coeffs a → positive_coeffs b →
  (∀ s, coefficient a s = coefficient b s) → a = b.
Proof.
  intros Ha Hb Hab. apply map_eq. intros s. specialize (Hab s).
  unfold coefficient in Hab.
  destruct (a !! s) as [x|] eqn:Hx, (b !! s) as [y|] eqn:Hy; cbn in Hab.
  - by subst.
  - pose proof (Ha s x Hx). cbv beta in *. lia.
  - pose proof (Hb s y Hy). cbv beta in *. lia.
  - done.
Qed.

End complex_facts.

(** ** Methods that build new complexes *)

Section fresh.
Context `{E : SymEngine}.
Variable complex_str : Complex → string.

Lemma remove_all_run (self : Reaction) (h : list Complex)
    (R P : Complex) (x : expr) :
  h !! reactant self = Some R → h !! product self = Some P →
  rate self = Some x →
  remove_react_prod self None h
  = Ok (mkReaction (reactionid self) (length h) (S (length h)) (Some x)
          (Some (x / ma (c_sub R (c_and R P)))%E),
        h ++ [c_sub R (c_and R P); c_sub P (c_and R P)]).
Proof.
  intros HR HP Hx. unfold remove_react_prod.
  rewrite (bind_Ok _ _ _ _ _ (deref_Some _ _ _ HR)).
  rewrite (bind_Ok _ _ _ _ _ (deref_Some _ _ _ HP)).
  set (R' := c_sub R (c_and R P)). set (P' := c_sub P (c_and R P)).
  unfold alloc, bind at 2 3. unfold ret at 1. unfold bind at 1.
  unfold update_kinetic_param, with_complexes. cbn [rate reactant]. rewrite Hx.
  cbn [need_rate]. unfold bind at 1. unfold ret at 1.
  rewrite length_app. cbn [length].
  assert (Hl : ((h ++ [R']) ++ [P']) !! length h = Some R').
  { rewrite <- app_assoc. by rewrite lookup_app_r, Nat.sub_diag by lia. }
  rewrite (bind_Ok _ _ _ _ _ (deref_Some _ _ _ Hl)).
  unfold ret, with_kinetic_param. cbn [reactionid reactant product rate].
  rewrite <- app_assoc. by rewrite Nat.add_1_r.
Qed.

Lemma remove_common_idempotent (R P : Complex) :
  positive_coeffs R → positive_coeffs P →
  let R' := c_sub R (c_and R P) in
  let P' := c_sub P (c_and R P) in
  c_sub R' (c_and R' P') = R' ∧ c_sub P' (c_and R' P') = P'.
Proof.
  intros HposR HposP R' P'.
  split; (apply complex_ext; [apply positive_c_sub..|]); intros s;
    unfold R', P';
    repeat (rewrite coefficient_c_sub || rewrite coefficient_c_and);
    pose proof (coefficient_nonneg R s HposR);
    pose proof (coefficient_nonneg P s HposP); lia.
Qed.


(** A second [remove_react_prod()] changes nothing but the objects: the
    complexes it builds have the contents of those of the first call, and
    rate and kinetic parameter stay. *)
Theorem remove_react_prod_twice (self : Reaction) (h : list Complex)
    (R P : Complex) (x : expr) :
  h !! reactant self = Some R → h !! product self = Some P →
  rate self = Some x →
  positive_coeffs R → positive_coeffs P →
  ∃ s1 h1 s2 h2,
    remove_react_prod self None h = Ok (s1, h1) ∧
    remove_react_prod s1 None h1 = Ok (s2, h2) ∧
    complexes h2 s2 = complexes h1 s1 ∧
    rate s2 = rate s1 ∧ kinetic_param s2 = kinetic_param s1.
Proof.
  intros HR HP Hx HposR HposP.
  set (R' := c_sub R (c_and R P)). set (P' := c_sub P (c_and R P)).
  destruct (remove_common_idempotent R P HposR HposP) as [HR' HP'].
  fold R' P' in HR', HP'.
  eexists _, (h ++ [R'; P']), _, _.
  split; [by apply remove_all_run|].
  assert (H1 : (h ++ [R'; P']) !! length h = Some R')
    by (by rewrite lookup_app_r, Nat.sub_diag by lia).
  assert (H2 : (h ++ [R'; P']) !! S (length h) = Some P').
  { rewrite lookup_app_r by lia.
    by replace (S (length h) - length h)%nat with 1%nat by lia. }
  split; [by apply (remove_all_run _ _ R' P' x)|].
  cbn [reactionid reactant product rate kinetic_param].
  rewrite HR', HP'. split; [|done].
  set (h1 := h ++ [R'; P']) in *.
  assert (H3 : (h1 ++ [R'; P']) !! length h1 = Some R')
    by (by rewrite lookup_app_r, Nat.sub_diag by lia).
  assert (H4 : (h1 ++ [R'; P']) !! S (length h1) = Some P').
  { rewrite lookup_app_r by lia.
    by replace (S (length h1) - length h1)%nat with 1%nat by lia. }
  unfold complexes. cbn [reactant product]. by rewrite H1, H2, H3, H4.
Qed.

Lemma translate_run (reaction : Reaction) (c : Complex) (h : list Complex)
    (R P : Complex) :
  h !! reactant reaction = Some R → h !! product reaction = Some P →
  translate complex_str reaction c h
  = Ok (mkReaction
          (reactionid reaction +:+ "_" +:+
           replace_char "-" "m"
             (replace_char "+" "_" (replace_char " " "" (complex_str c))))
          (length h) (S (length h)) (rate reaction)
          ((λ v, v / ma (c_add R c))%E <$> rate reaction),
        h ++ [c_add R c; c_add P c]).
Proof.
  intros HR HP. unfold translate.
  rewrite (bind_Ok _ _ _ _ _ (deref_Some _ _ _ HR)).
  unfold alloc, bind at 1.
  assert (HP' : (h ++ [c_add R c]) !! product reaction = Some P).
  { rewrite lookup_app_l; [done|]. by eapply lookup_lt_Some. }
  rewrite (bind_Ok _ _ _ _ _ (deref_Some _ _ _ HP')).
  unfold bind at 1. rewrite length_app. cbn [length].
  rewrite Nat.add_1_r. rewrite <- app_assoc. cbn [app].
  assert (Hl : (h ++ [c_add R c; c_add P c]) !! length h = Some (c_add R c))
    by (by rewrite lookup_app_r, Nat.sub_diag by lia).
  unfold Reaction_init. destruct (rate reaction) as [v|]; cbn [set_rate].
  - cbn [reactant]. by rewrite (bind_Ok _ _ _ _ _ (deref_Some _ _ _ Hl)).
  - done.
Qed.

(** [translate] builds two new complexes, [reactant + c] and [product + c],
    and leaves the old ones as they are; the rate is the one of the reaction
    translated, the kinetic parameter is derived from it, and for each
    species the difference between product and reactant is what it was. *)
Theorem translate_spec (reaction : Reaction) (c : Complex) (h : list Complex)
    (R P : Complex) :
  h !! reactant reaction = Some R → h !! product reaction = Some P →
  positive_coeffs R → positive_coeffs P → positive_coeffs c →
  ∃ t, translate complex_str reaction c h
       = Ok (t, h ++ [c_add R c; c_add P c]) ∧
       reactant t = length h ∧ product t = S (length h) ∧
       rate t = rate reaction ∧
       kinetic_param t = (λ v, v / ma (c_add R c))%E <$> rate reaction ∧
       ∀ s, coefficient (c_add P c) s - coefficient (c_add R c) s
            = coefficient P s - coefficient R s.
Proof.
  intros HR HP HposR HposP Hposc. eexists.
  split; [by apply translate_run|]. do 4 (split; [done|]).
  intros s. rewrite !coefficient_c_add.
  pose proof (coefficient_nonneg R s HposR).
  pose proof (coefficient_nonneg P s HposP).
  pose proof (coefficient_nonneg c s Hposc). lia.
Qed.

(** [reaction_path] on two reactions: the two translated reactions can be
    composed, the product of the first having the content of the reactant of
    the second; their rates are those of the reactions given, whose objects
    are left as they are. *)
Theorem reaction_path_two (r1 r2 : Reaction) (h : list Complex)
    (R1 P1 R2 P2 : Complex) :
  h !! reactant r1 = Some R1 → h !! product r1 = Some P1 →
  h !! reactant r2 = Some R2 → h !! product r2 = Some P2 →
  positive_coeffs P1 → positive_coeffs R2 →
  ∃ t1 t2 a1 a2 new,
    reaction_path complex_str [r1; r2] h = Ok (([t1; t2], [a1; a2]), h ++ new) ∧
    (complexes (h ++ new) t1).2 = (complexes (h ++ new) t2).1 ∧
    rate t1 = rate r1 ∧ rate t2 = rate r2 ∧
    a1 = c_sub R2 (c_and R2 P1) ∧ a2 = c_sub P1 (c_and R2 P1).
Proof.
  intros HR1 HP1 HR2 HP2 HposP1 HposR2. unfold reaction_path.
  cbn [length seq mapM' take drop].
  unfold bind, ret, lift, deref. rewrite HR2. cbv beta iota.
  cbn [app reduce foldl]. rewrite HP1. cbv beta iota.
  cbn [app reduce foldl map zip zip_with mapM' fst snd].
  unfold bind, ret.
  set (c := c_and R2 P1).
  rewrite (translate_run r1 (c_sub R2 c) h R1 P1 HR1 HP1).
  set (h1 := h ++ [c_add R1 (c_sub R2 c); c_add P1 (c_sub R2 c)]).
  assert (HR2' : h1 !! reactant r2 = Some R2).
  { unfold h1. rewrite lookup_app_l; [done|]. by eapply lookup_lt_Some. }
  assert (HP2' : h1 !! product r2 = Some P2).
  { unfold h1. rewrite lookup_app_l; [done|]. by eapply lookup_lt_Some. }
  rewrite (translate_run r2 (c_sub P1 c) h1 R2 P2 HR2' HP2').
  eexists _, _, _, _,
    [c_add R1 (c_sub R2 c); c_add P1 (c_sub R2 c);
     c_add R2 (c_sub P1 c); c_add P2 (c_sub P1 c)].
  split; [unfold h1; by rewrite <- app_assoc|].
  split; [|done].
  unfold complexes. cbn [reactant product snd fst].
  rewrite (lookup_app_r h _ (S (length h))) by lia.
  replace (S (length h) - length h)%nat with 1%nat by lia.
  rewrite length_app. cbn [length].
  rewrite (lookup_app_r h _ (length h + 2)) by lia.
  replace (length h + 2 - length h)%nat with 2%nat by lia.
  cbn [lookup list_lookup default from_option]. unfold id.
  apply complex_ext; [apply positive_c_add..|]. intros s. unfold c.
  repeat (rewrite coefficient_c_add || rewrite coefficient_c_sub
          || rewrite coefficient_c_and).
  pose proof (coefficient_nonneg P1 s HposP1).
  pose proof (coefficient_nonneg R2 s HposR2). lia.
Qed.

End fresh.

(** ** [format] and [__copy__] *)

Section format_facts.
Context `{E : SymEngine}.
Variable complex_str : Complex → string.

(** On a reaction with a rate other than 0 whose kinetic parameter is not a
    [Float], [format_kinetics] gives the text of the kinetic parameter, or of
    the rate when asked for it, whatever the precision; [format] puts it in
    brackets after the arrow. *)
Theorem format_with_rate (self : Reaction) (x k : expr) (precision : nat)
    (showrate : bool) (h : list Complex) (R P : Complex) :
  rate self = Some x → x ≠ num 0 → kinetic_param self = Some k →
  is_Float k = false →
  h !! reactant self = Some R → h !! product self = Some P →
  let shown := expr_str (if showrate then x else k) in
  format_kinetics self showrate precision h = Ok (Some shown, h) ∧
  format complex_str self showrate precision h
  = Ok (reactionid self +:+ ": " +:+ complex_str R +:+ " ->" +:+
        ("(" +:+ shown +:+ ")") +:+ " " +:+ complex_str P, h).
Proof.
  intros Hx Hnz Hk Hfl HR HP shown.
  assert (Hfk : format_kinetics self showrate precision h = Ok (Some shown, h)).
  { unfold format_kinetics. rewrite Hx, Hk. cbn [has_rate need_rate].
    unfold truthy. rewrite bool_decide_eq_false_2 by done. cbn [negb].
    rewrite (bind_Ok _ _ _ k h) by done. rewrite Hfl.
    unfold shown. by destruct showrate. }
  split; [exact Hfk|]. unfold format.
  rewrite (bind_Ok _ _ _ _ _ (deref_Some _ _ _ HR)).
  rewrite Hx. cbn [has_rate]. unfold truthy.
  rewrite bool_decide_eq_false_2 by done. cbn [negb].
  rewrite (bind_Ok _ _ _ ("(" +:+ shown +:+ ")") h)
    by by rewrite (bind_Ok _ _ _ _ _ Hfk).
  by rewrite (bind_Ok _ _ _ _ _ (deref_Some _ _ _ HP)).
Qed.

(** [__copy__] gives a reaction on the same two objects, with the same id
    and rate, and [__eq__] finds the copy equal to the original. *)
Theorem copy_shares_and_equals `{!SymLaws E} (self : Reaction) (x : expr)
    (h : list Complex) (R P : Complex) :
  rate self = Some x →
  h !! reactant self = Some R → h !! product self = Some P →
  ∃ c, Reaction_copy self h = Ok (c, h) ∧
       reactionid c = reactionid self ∧
       reactant c = reactant self ∧ product c = product self ∧
       rate c = rate self ∧
       Reaction_eq c self h = Ok (true, h).
Proof.
  intros Hx HR HP. eexists. split.
  { unfold Reaction_copy. rewrite Hx. by apply Reaction_init_Some. }
  cbn [reactionid reactant product rate]. do 4 (split; [done|]).
  rewrite (Reaction_eq_run _ self h R P R P x x) by done.
  assert (Hxx : cancel (x - x)%E = num 0)
    by apply (reflexivity (R := same_rate) x).
  by rewrite !bool_decide_eq_true_2.
Qed.

End format_facts.

(** ** The properties above, at concrete reactions *)

Lemma format_with_rate_witness :
  let shown := expr_str (if false then (Scenario.k * Scenario.A)%E
                         else Scenario.k) in
  rate Scenario.r1 = Some (Scenario.k * Scenario.A)%E ∧
  (Scenario.k * Scenario.A)%E ≠ num 0 ∧
  kinetic_param Scenario.r1 = Some Scenario.k ∧
  is_Float Scenario.k = false ∧
  Scenario.h0 !! reactant Scenario.r1 = Some Scenario.cA ∧
  Scenario.h0 !! product Scenario.r1 = Some Scenario.cB ∧
  format_kinetics Scenario.r1 false 3 Scenario.h0
  = Ok (Some shown, Scenario.h0) ∧
  format Scenario.show_complex Scenario.r1 false 3 Scenario.h0
  = Ok (reactionid Scenario.r1 +:+ ": " +:+
        Scenario.show_complex Scenario.cA +:+ " ->" +:+
        ("(" +:+ shown +:+ ")") +:+ " " +:+
        Scenario.show_complex Scenario.cB, Scenario.h0).
Proof.
  intros shown.
  assert (Hnz : (Scenario.k * Scenario.A)%E ≠ num 0) by run.
  split; [reflexivity|]. split; [exact Hnz|]. split; [reflexivity|].
  split; [reflexivity|]. split; [reflexivity|]. split; [reflexivity|].
  exact (format_with_rate Scenario.show_complex Scenario.r1 _ Scenario.k 3
           false Scenario.h0 Scenario.cA Scenario.cB
           eq_refl Hnz eq_refl eq_refl eq_refl eq_refl).
Defined.

Lemma copy_shares_and_equals_witness :
  rate Scenario.r1 = Some (Scenario.k * Scenario.A)%E ∧
  Scenario.h0 !! reactant Scenario.r1 = Some Scenario.cA ∧
  Scenario.h0 !! product Scenario.r1 = Some Scenario.cB ∧
  ∃ c, Reaction_copy Scenario.r1 Scenario.h0 = Ok (c, Scenario.h0) ∧
       reactionid c = reactionid Scenario.r1 ∧
       reactant c = reactant Scenario.r1 ∧ product c = product Scenario.r1 ∧
       rate c = rate Scenario.r1 ∧
       Reaction_eq c Scenario.r1 Scenario.h0 = Ok (true, Scenario.h0).
Proof.
  split; [reflexivity|]. split; [reflexivity|]. split; [reflexivity|].
  exact (copy_shares_and_equals Scenario.r1 _ Scenario.h0 Scenario.cA
           Scenario.cB eq_refl eq_refl eq_refl).
Defined.


Lemma Reaction_eq_missing_rate_witness :
  let h := Scenario.h_two in
  let a := Scenario.m1 in
  let b := @mkReaction Laurent.engine "y" 2%nat 3%nat None None in
  (h !! reactant a = Some Scenario.cA ∧ h !! product a = Some Scenario.cB ∧
   h !! reactant b = Some Scenario.cA ∧ h !! product b = Some Scenario.cB ∧
   (rate a = None ∨ rate b = None)) ∧
  Reaction_eq a b h
  = if decide (Scenario.cA = Scenario.cA ∧ Scenario.cB = Scenario.cB)
    then Raise TypeError else Ok (false, h).
Proof.
  intros h a b.
  assert (Hn : rate a = None ∨ rate b = None) by (right; reflexivity).
  split; [repeat split; try reflexivity; exact Hn|].
  exact (Reaction_eq_missing_rate h a b Scenario.cA Scenario.cB Scenario.cA
           Scenario.cB eq_refl eq_refl eq_refl eq_refl Hn).
Defined.

Lemma merge_reactions_no_loops_witness :
  let rs := [Scenario.m1; Scenario.m2] in
  let h := Scenario.h_two in
  Forall (allocated h) rs ∧ Forall (λ r, is_Some (rate r)) rs ∧
  ∃ out, merge_reactions rs h = Ok (out, h) ∧
         Forall (λ m, (complexes h m).1 ≠ (complexes h m).2) out ∧
         NoDup (map (complexes h) out) ∧
         Forall (λ m, is_Some (rate m)) out ∧
         (length out ≤ length rs)%nat.
Proof.
  intros rs h.
  assert (Hal : Forall (allocated h) rs).
  { constructor; [split; eexists; reflexivity|].
    constructor; [split; eexists; reflexivity|]. constructor. }
  assert (Hrate : Forall (λ r, is_Some (rate r)) rs).
  { constructor; [eexists; reflexivity|].
    constructor; [eexists; reflexivity|]. constructor. }
  split; [exact Hal|]. split; [exact Hrate|].
  exact (merge_reactions_no_loops rs h Hal Hrate).
Defined.

Lemma merge_reactions_missing_rate_witness :
  let r := @mkReaction Laurent.engine "n" 0%nat 1%nat None None in
  Scenario.h0 !! reactant r = Some Scenario.cA ∧
  Scenario.h0 !! product r = Some Scenario.cB ∧
  Scenario.cA ≠ Scenario.cB ∧ rate r = None ∧
  merge_reactions [r] Scenario.h0 = Raise TypeError.
Proof.
  intros r. assert (Hne : Scenario.cA ≠ Scenario.cB) by run.
  split; [reflexivity|]. split; [reflexivity|]. split; [exact Hne|].
  split; [reflexivity|].
  exact (merge_reactions_missing_rate r Scenario.h0 Scenario.cA Scenario.cB
           eq_refl eq_refl Hne eq_refl).
Defined.

Lemma same_denom_unchanged_witness :
  let xs := [(Scenario.k * Scenario.A)%E] in
  map rate [Scenario.r1] = map Some xs ∧
  reduce lcm (map (λ x, (as_numer_denom x).2) xs) = Ok (num 1) ∧
  Forall (λ x, cancel ((as_numer_denom x).2 - num 1)%E = num 0) xs ∧
  _same_denom [Scenario.r1] Scenario.h0 = Ok ([Scenario.r1], Scenario.h0).
Proof.
  intros xs.
  assert (H2 : reduce lcm (map (λ x, (as_numer_denom x).2) xs) = Ok (num 1))
    by run.
  assert (H3 : Forall (λ x, cancel ((as_numer_denom x).2 - num 1)%E = num 0) xs).
  { constructor; [run|constructor]. }
  split; [reflexivity|]. split; [exact H2|]. split; [exact H3|].
  exact (same_denom_unchanged [Scenario.r1] xs (num 1) Scenario.h0
           eq_refl H2 H3).
Defined.

Lemma fix_ma_not_product_witness :
  rate Scenario.r1 = Some (Scenario.k * Scenario.A)%E ∧
  Scenario.h0 !! reactant Scenario.r1 = Some Scenario.cA ∧
  func_name (factor ((as_numer_denom (Scenario.k * Scenario.A)%E).1
                     / ma Scenario.cA)%E) ≠ Mul ∧
  _fix_ma 0 Scenario.r1 None Scenario.h0 = Ok (Scenario.r1, Scenario.h0).
Proof.
  assert (H3 : func_name (factor ((as_numer_denom (Scenario.k * Scenario.A)%E).1
                     / ma Scenario.cA)%E) ≠ Mul) by run.
  split; [reflexivity|]. split; [reflexivity|]. split; [exact H3|].
  exact (fix_ma_not_product 0 Scenario.r1 None Scenario.h0 _ Scenario.cA
           eq_refl eq_refl H3).
Defined.

Lemma fix_ma_default_species_witness :
  let self := mkReaction "r2" 0%nat 1%nat (Some Scenario.rate2) None in
  let q := factor ((as_numer_denom Scenario.rate2).1 / ma Scenario.cA)%E in
  rate self = Some Scenario.rate2 ∧
  Scenario.h0 !! reactant self = Some Scenario.cA ∧
  func_name q = Mul ∧
  args_and_bases q = Ok [Scenario.k; Scenario.A] ∧
  _fix_ma 7 self None Scenario.h0 = Raise TypeError.
Proof.
  intros self q.
  assert (H3 : func_name q = Mul) by run.
  assert (H4 : args_and_bases q = Ok [Scenario.k; Scenario.A]) by run.
  split; [reflexivity|]. split; [reflexivity|]. split; [exact H3|].
  split; [exact H4|].
  exact (fix_ma_default_species 7 self Scenario.h0 Scenario.rate2 Scenario.cA
           _ eq_refl eq_refl H3 H4).
Defined.

Lemma rateless_reaction_witness :
  let run (f : @Reaction Laurent.engine → M Reaction) :=
    (self <- Reaction_init "n" 0%nat 0%nat None ;; f self) Scenario.h0 in
  (Scenario.h0 !! 0%nat = Some Scenario.cA ∧
   Scenario.h0 !! 0%nat = Some Scenario.cA) ∧
  Reaction_init "n" 0%nat 0%nat None Scenario.h0
  = Ok (mkReaction "n" 0%nat 0%nat None None, Scenario.h0) ∧
  (self <- Reaction_init "n" 0%nat 0%nat None ;;
   format_kinetics self true 5) Scenario.h0 = Ok (None, Scenario.h0) ∧
  run (λ self, _fix_ma 2 self None) = Raise AttributeError ∧
  run (λ self, _fix_denom 2 self ["A"]) = Raise AttributeError ∧
  run (λ self, remove_react_prod self (Some "A")) = Raise TypeError.
Proof.
  intros run. split; [by split|].
  exact (rateless_reaction (E := Laurent.engine) "n" 0%nat 0%nat Scenario.h0
           2 None ["A"] (Some "A") true 5 Scenario.cA Scenario.cA
           eq_refl eq_refl).
Defined.

Lemma I1_after_init_witness :
  (∀ x c, same_rate (x / ma c * ma c)%E x) ∧
  Reaction_init "r1" 0%nat 1%nat (Some (Scenario.k * Scenario.A)%E) Scenario.h0
  = Ok (Scenario.r1, Scenario.h0) ∧
  I1 Scenario.h0 Scenario.r1 ∧ Scenario.h0 = Scenario.h0.
Proof.
  assert (Hinit : Reaction_init "r1" 0%nat 1%nat
                    (Some (Scenario.k * Scenario.A)%E) Scenario.h0
                  = Ok (Scenario.r1, Scenario.h0)) by run.
  split; [exact LaurentUnits.laurent_mul_div|]. split; [exact Hinit|].
  exact (I1_after_init LaurentUnits.laurent_mul_div "r1" 0%nat 1%nat _
           Scenario.r1 Scenario.h0 Scenario.h0 Hinit).
Defined.

Lemma I1_after_remove_react_prod_witness :
  let self := mkReaction "r" 0%nat 1%nat (Some Scenario.k) None in
  let self' := mkReaction "r" 0%nat 1%nat (Some Scenario.k)
                 (Some (Scenario.k / Scenario.A ^ 2)%E) in
  let h : list Complex := [ {[ "A" := 3 ]}; {[ "A" := 1 ]} ] in
  let h' : list Complex := [ {[ "A" := 2 ]}; ∅ ] in
  (∀ x c, same_rate (x / ma c * ma c)%E x) ∧
  remove_react_prod self (Some "A") h = Ok (self', h') ∧
  I1 h' self'.
Proof.
  intros self self' h h'.
  assert (Hrun : remove_react_prod self (Some "A") h = Ok (self', h')) by run.
  split; [exact LaurentUnits.laurent_mul_div|]. split; [exact Hrun|].
  exact (I1_after_remove_react_prod LaurentUnits.laurent_mul_div self self'
           (Some "A") h h' Hrun).
Defined.

Lemma I1_after_fix_denom_witness :
  let self := mkReaction "r" 0%nat 1%nat (Some (Scenario.k * Scenario.A)%E)
                (Some (Scenario.k / Scenario.B)%E) in
  let self' := mkReaction "r" 0%nat 1%nat (Some (Scenario.k * Scenario.A)%E)
                 (Some Scenario.k) in
  let h' : list Complex := [ {[ "A" := 1 ]}; ∅ ] in
  (∀ x c, same_rate (x / ma c * ma c)%E x) ∧
  _fix_denom 3 self ["B"] Scenario.h_AB = Ok (self', h') ∧
  I1 h' self'.
Proof.
  intros self self' h'.
  assert (Hrun : _fix_denom 3 self ["B"] Scenario.h_AB = Ok (self', h')) by run.
  split; [exact LaurentUnits.laurent_mul_div|]. split; [exact Hrun|].
  exact (I1_after_fix_denom LaurentUnits.laurent_mul_div 3 self self' ["B"]
           Scenario.h_AB h' Hrun).
Defined.

Lemma I1_after_fix_ma_witness :
  let self := mkReaction "r2" 0%nat 1%nat (Some Scenario.rate2)
                (Some (Scenario.k * Scenario.A)%E) in
  let self' := mkReaction "r2" 0%nat 1%nat (Some Scenario.rate2)
                 (Some Scenario.k) in
  let h' : list Complex := [ {[ "A" := 2 ]}; {[ "B" := 1; "A" := 1 ]} ] in
  (∀ x c, same_rate (x / ma c * ma c)%E x) ∧
  I1 Scenario.h0 self ∧
  _fix_ma 3 self (Some ["A"]) Scenario.h0 = Ok (self', h') ∧
  I1 h' self'.
Proof.
  intros self self' h'.
  assert (HI : I1 Scenario.h0 self).
  { eexists _, _. split; [reflexivity|]. split; [reflexivity|]. run. }
  assert (Hrun : _fix_ma 3 self (Some ["A"]) Scenario.h0 = Ok (self', h'))
    by run.
  split; [exact LaurentUnits.laurent_mul_div|]. split; [exact HI|].
  split; [exact Hrun|].
  exact (I1_after_fix_ma LaurentUnits.laurent_mul_div 3 self self'
           (Some ["A"]) Scenario.h0 h' HI Hrun).
Defined.


Lemma remove_react_prod_twice_witness :
  let self := mkReaction "r" 0%nat 1%nat (Some Scenario.k) None in
  let R : Complex := {[ "A" := 3; "B" := 1 ]} in
  let P : Complex := {[ "A" := 1; "C" := 2 ]} in
  let h := [R; P] in
  (h !! reactant self = Some R ∧ h !! product self = Some P ∧
   rate self = Some Scenario.k ∧ positive_coeffs R ∧ positive_coeffs P) ∧
  ∃ s1 h1 s2 h2,
    remove_react_prod self None h = Ok (s1, h1) ∧
    remove_react_prod s1 None h1 = Ok (s2, h2) ∧
    complexes h2 s2 = complexes h1 s1 ∧
    rate s2 = rate s1 ∧ kinetic_param s2 = kinetic_param s1.
Proof.
  intros self R P h.
  assert (HR : positive_coeffs R) by run.
  assert (HP : positive_coeffs P) by run.
  split; [by repeat split|].
  exact (remove_react_prod_twice self h R P Scenario.k eq_refl eq_refl eq_refl
           HR HP).
Defined.

Lemma translate_spec_witness :
  let h := Scenario.h0 in
  let R := Scenario.cA in
  let P := Scenario.cB in
  let c := Scenario.cB in
  (h !! reactant Scenario.r1 = Some R ∧ h !! product Scenario.r1 = Some P ∧
   positive_coeffs R ∧ positive_coeffs P ∧ positive_coeffs c) ∧
  ∃ t, translate Scenario.show_complex Scenario.r1 c h
       = Ok (t, h ++ [c_add R c; c_add P c]) ∧
       reactant t = length h ∧ product t = S (length h) ∧
       rate t = rate Scenario.r1 ∧
       kinetic_param t
       = (λ v, v / ma (c_add R c))%E <$> rate Scenario.r1 ∧
       ∀ s, coefficient (c_add P c) s - coefficient (c_add R c) s
            = coefficient P s - coefficient R s.
Proof.
  intros h R P c.
  assert (HR : positive_coeffs R) by run.
  assert (HP : positive_coeffs P) by run.
  split; [by repeat split|].
  exact (translate_spec Scenario.show_complex Scenario.r1 c h R P
           eq_refl eq_refl HR HP HP).
Defined.

Lemma reaction_path_two_witness :
  let h := Scenario.h0 in
  let r2 := mkReaction "r2" 0%nat 1%nat (Some Scenario.k) None in
  (h !! reactant Scenario.r1 = Some Scenario.cA ∧
   h !! product Scenario.r1 = Some Scenario.cB ∧
   h !! reactant r2 = Some Scenario.cA ∧ h !! product r2 = Some Scenario.cB ∧
   positive_coeffs Scenario.cB ∧ positive_coeffs Scenario.cA) ∧
  ∃ t1 t2 a1 a2 new,
    reaction_path Scenario.show_complex [Scenario.r1; r2] h
    = Ok (([t1; t2], [a1; a2]), h ++ new) ∧
    (complexes (h ++ new) t1).2 = (complexes (h ++ new) t2).1 ∧
    rate t1 = rate Scenario.r1 ∧ rate t2 = rate r2 ∧
    a1 = c_sub Scenario.cA (c_and Scenario.cA Scenario.cB) ∧
    a2 = c_sub Scenario.cB (c_and Scenario.cA Scenario.cB).
Proof.
  intros h r2.
  assert (HP : positive_coeffs Scenario.cB) by run.
  assert (HR : positive_coeffs Scenario.cA) by run.
  split; [by repeat split|].
  exact (reaction_path_two Scenario.show_complex Scenario.r1 r2 h
           Scenario.cA Scenario.cB Scenario.cA Scenario.cB
           eq_refl eq_refl eq_refl eq_refl HP HR).
Defined.
